(** * Geodesic_EOM_deriver: the [Metric] class and the preset registry

    A shallow embedding of [metric.py].  The Python file is a thin layer
    over the computer-algebra library it imports: the library itself is
    not part of the repository, so the pieces of it that the code calls
    (expressions, differentiation, matrix inversion) are modelled from the
    design document, each under a doc comment that says so.  Everything
    else ([Metric.__init__], [deriv], [compute_christoffel],
    [compute_geodesic_rhs], [getMetric]) is translated from the source,
    statement by statement, in an error monad whose failures are the
    Python exceptions the code can raise. *)

From HB Require Import structures.
From Stdlib Require Import String.
From mathcomp Require Import boot order algebra.

Set Implicit Arguments.
Unset Strict Implicit.
Unset Printing Implicit Defensive.

Import Order.Theory GRing.Theory Num.Theory.

Local Open Scope ring_scope.

(** Symbol names are Python strings; they are compared by name, which is
    how the algebra library identifies two symbols. *)
HB.instance Definition _ := hasDecEq.Build string String.eqb_spec.

(* ===================================================================== *)
(** * Python exceptions and the error monad *)
(* ===================================================================== *)

Module Py.

Inductive exception : Type :=
| IndexError
| KeyError (key : string)
| NonSquareMatrixError
| NonInvertibleMatrixError.

(** A computation either raises or returns. *)
Definition exc (T : Type) : Type := (exception + T)%type.

Definition ret {T : Type} (x : T) : exc T := inr x.
Definition raise {T : Type} (e : exception) : exc T := inl e.

Definition bind {T U : Type} (c : exc T) (k : T -> exc U) : exc U :=
  match c with
  | inl e => inl e
  | inr x => k x
  end.

Definition raises {T : Type} (c : exc T) : bool :=
  if c is inl _ then true else false.

Definition returns {T : Type} (c : exc T) : bool :=
  if c is inr _ then true else false.

(** [for x in l: acc = body(acc, x)], stopping at the first exception. *)
Fixpoint foldM {T A : Type} (body : A -> T -> exc A) (acc : A) (l : seq T)
  : exc A :=
  match l with
  | [::] => ret acc
  | x :: l' => bind (body acc x) (fun acc' => foldM body acc' l')
  end.

(** [[f(x) for x in l]], stopping at the first exception. *)
Fixpoint mapM {T U : Type} (f : T -> exc U) (l : seq T) : exc (seq U) :=
  match l with
  | [::] => ret [::]
  | x :: l' => bind (f x) (fun y => bind (mapM f l') (fun ys => ret (y :: ys)))
  end.

(** [range(n)] as Python integers. *)
Definition range (n : nat) : seq int := [seq Posz k | k <- iota 0 n].

(** Index normalisation of Python sequences: a negative index counts from
    the end; what is still outside [0, n) is an [IndexError]. *)
Definition norm_index (n : nat) (i : int) : option nat :=
  let j := if i < 0 then i + n%:Z else i in
  if (0 <= j) && (j < n%:Z) then Some (absz j) else None.

(** The indices a sequence of length [n] accepts: [-n <= i < n]. *)
Definition in_range (n : nat) (i : int) : bool :=
  (- n%:Z <= i) && (i < n%:Z).

(** Where an accepted index points: a negative one counts from the end. *)
Definition wrap_index (n : nat) (i : int) : int :=
  if i < 0 then i + n%:Z else i.

(** [l[i]] on a Python list. *)
Definition getitem {T : Type} (l : seq T) (i : int) : exc T :=
  match norm_index (size l) i with
  | Some k => if ohead (drop k l) is Some x then ret x else raise IndexError
  | None => raise IndexError
  end.

(** [d[key]] on a dict literal, kept as an association list. *)
Fixpoint dict_getitem {V : Type} (d : seq (string * V)) (key : string)
  : exc V :=
  match d with
  | [::] => raise (KeyError key)
  | (k, v) :: d' => if k == key then ret v else dict_getitem d' key
  end.

End Py.

Import Py.

Declare Scope py_scope.
Delimit Scope py_scope with py.
Notation "x <- c ;; k" := (bind c (fun x => k))
  (at level 61, c at next level, right associativity) : py_scope.
Local Open Scope py_scope.

(* ===================================================================== *)
(** * The algebra library, as the design document describes it *)
(* ===================================================================== *)

Module Sym.

(** Modelled from the spec: the [Expression] type of the data model, which
    stands for the expressions of the imported algebra library.  Numbers
    are exact rationals: the only floating-point literals of the code are
    [0.0] and [1.0/2.0], both exactly representable. *)
Inductive Expression : Type :=
| Constant (c : rat)
| Symbol (name : string)
| Add (terms : seq Expression)
| Mul (factors : seq Expression)
| Pow (base exponent : Expression)
| Neg (e : Expression)
| Sin (e : Expression)
| Cos (e : Expression).

(** The expression trees that Python's operators build. *)
Definition e_add (a b : Expression) : Expression := Add [:: a; b].
Definition e_neg (a : Expression) : Expression := Neg a.
Definition e_sub (a b : Expression) : Expression := Add [:: a; Neg b].
Definition e_mul (a b : Expression) : Expression := Mul [:: a; b].
Definition e_pow (a b : Expression) : Expression := Pow a b.
Definition e_div (a b : Expression) : Expression :=
  Mul [:: a; Pow b (Constant (-1))].
Definition e_int (z : int) : Expression := Constant z%:~R.

(** Modelled from the spec: the product rule of [differentiate], the sum
    over the factors of the derivative of one factor times the rest. *)
Definition product_rule (fs dfs : seq Expression) : seq Expression :=
  [seq Mul (take i fs ++ nth (Constant 0) dfs i :: drop i.+1 fs)
  | i <- iota 0 (size fs)].

(** The exponent [k - 1] of the power rule: a constant when [k] is one. *)
Definition pred_exponent (k : Expression) : Expression :=
  if k is Constant c then Constant (c - 1) else Add [:: k; Constant (-1)].

(** Modelled from the spec: [differentiate(e, x)], the differentiation
    function of the algebra library ([sympy.diff] in the source).  The
    power rule is the only rule the design document gives for [Pow]; it is
    applied whatever the exponent is, which keeps the function total. *)
Fixpoint differentiate (e : Expression) (x : string) : Expression :=
  match e with
  | Constant _ => Constant 0
  | Symbol s => if s == x then Constant 1 else Constant 0
  | Add ts => Add [seq differentiate t x | t <- ts]
  | Mul fs => Add (product_rule fs [seq differentiate f x | f <- fs])
  | Pow b k =>
      Mul [:: k; Pow b (pred_exponent k); differentiate b x]
  | Neg u => Neg (differentiate u x)
  | Sin u => Mul [:: Cos u; differentiate u x]
  | Cos u => Mul [:: Neg (Sin u); differentiate u x]
  end.

(** ** Values

    The value of an expression at a point: the point gives every symbol a
    value in a field of characteristic zero, and the elementary functions
    are whatever the field provides for them. *)
Section Eval.

Variable F : numFieldType.

Record point : Type := Point {
  env : string -> F;
  fsin : F -> F;
  fcos : F -> F;
  fpow : F -> F -> F
}.

Variable p : point.

Fixpoint eval (e : Expression) : F :=
  match e with
  | Constant c => ratr c
  | Symbol s => env p s
  | Add ts => foldr (fun t acc => eval t + acc) 0 ts
  | Mul fs => foldr (fun f acc => eval f * acc) 1 fs
  | Pow b k =>
      match k with
      | Constant c =>
          if denq c == 1 then eval b ^ numq c else fpow p (eval b) (ratr c)
      | _ => fpow p (eval b) (eval k)
      end
  | Neg u => - eval u
  | Sin u => fsin p (eval u)
  | Cos u => fcos p (eval u)
  end.

End Eval.

(** ** Matrices *)

(** A matrix is the list of its rows, as the constructor call
    [sympy.Matrix([[...], ...])] gives them. *)
Definition Matrix : Type := seq (seq Expression).

Definition is_square (M : Matrix) : bool :=
  all (fun row => size row == size M) M.

(** Total accessor, for statements: entry [i, j], or zero outside. *)
Definition entry (M : Matrix) (i j : nat) : Expression :=
  nth (Constant 0) (nth [::] M i) j.

(** [M[i, j]]: both indices are normalised like list indices. *)
Definition matrix_getitem (M : Matrix) (i j : int) : exc Expression :=
  row <- getitem M i ;; getitem row j.

Definition remove_nth {T : Type} (k : nat) (s : seq T) : seq T :=
  take k s ++ drop k.+1 s.

(** The matrix without row [i] and column [j]. *)
Definition minor_matrix (i j : nat) (M : Matrix) : Matrix :=
  [seq remove_nth j row | row <- remove_nth i M].

Definition signed (k : nat) (e : Expression) : Expression :=
  if odd k then Neg e else e.

(** Modelled from the spec: [determinant(M)], Laplace cofactor expansion
    along the first row, with the 1x1 and 2x2 base cases. *)
Fixpoint det_rec (n : nat) (M : Matrix) : Expression :=
  match n with
  | 0 => Constant 1
  | S n1 =>
      match n1 with
      | 0 => entry M 0 0
      | S n2 =>
          match n2 with
          | 0 => e_sub (e_mul (entry M 0 0) (entry M 1 1))
                       (e_mul (entry M 0 1) (entry M 1 0))
          | S _ =>
              Add [seq signed j
                         (e_mul (entry M 0 j) (det_rec n1 (minor_matrix 0 j M)))
                  | j <- iota 0 n]
          end
      end
  end.

Definition determinant (M : Matrix) : Expression := det_rec (size M) M.

(** Cofactor [i, j]: the signed determinant of the minor. *)
Definition cofactor (M : Matrix) (i j : nat) : Expression :=
  signed (i + j) (det_rec (size M).-1 (minor_matrix i j M)).

(** Modelled from the spec: adjugate entry [i, j] is cofactor [j, i]. *)
Definition adjugate (M : Matrix) : Matrix :=
  [seq [seq cofactor M j i | j <- iota 0 (size M)] | i <- iota 0 (size M)].

(** Structural equality of expressions. *)
Fixpoint expr_eqb (a b : Expression) : bool :=
  let fix list_eqb (l l' : seq Expression) : bool :=
    match l, l' with
    | [::], [::] => true
    | x :: l1, y :: l2 => expr_eqb x y && list_eqb l1 l2
    | _, _ => false
    end in
  match a, b with
  | Constant c, Constant d => c == d
  | Symbol s, Symbol t => s == t
  | Add l, Add l' => list_eqb l l'
  | Mul l, Mul l' => list_eqb l l'
  | Pow a1 a2, Pow b1 b2 => expr_eqb a1 b1 && expr_eqb a2 b2
  | Neg u, Neg v => expr_eqb u v
  | Sin u, Sin v => expr_eqb u v
  | Cos u, Cos v => expr_eqb u v
  | _, _ => false
  end.

(** A polynomial in the subexpressions that are not sums, products,
    negations or natural powers: a list of terms, each a rational
    coefficient and the list of the factors of its monomial. *)
Definition polynomial : Type := seq (rat * seq Expression).

Definition poly_one : polynomial := [:: (1, [::])].

Definition poly_mul (p q : polynomial) : polynomial :=
  [seq (t.1 * u.1, t.2 ++ u.2) | t <- p, u <- q].

Fixpoint poly_exp (p : polynomial) (k : nat) : polynomial :=
  if k is k'.+1 then poly_mul p (poly_exp p k') else poly_one.

(** The expansion of an expression: sums, products, negations and powers
    with a natural number as exponent are multiplied out; every other
    expression is a factor of its own. *)
Fixpoint to_poly (e : Expression) : polynomial :=
  match e with
  | Constant c => [:: (c, [::])]
  | Add ts => flatten [seq to_poly t | t <- ts]
  | Mul fs => foldr (fun f acc => poly_mul (to_poly f) acc) poly_one fs
  | Neg u => [seq (- t.1, t.2) | t <- to_poly u]
  | Pow b k =>
      match k with
      | Constant c =>
          if (denq c == 1) && (0 <= numq c)
          then poly_exp (to_poly b) (absz (numq c))
          else [:: (1, [:: e])]
      | _ => [:: (1, [:: e])]
      end
  | _ => [:: (1, [:: e])]
  end.

(** Two monomials are the same when they have the same factors, in any
    order. *)
Definition mono_eqb (m1 m2 : seq Expression) : bool :=
  all (fun a => count (expr_eqb a) m1 == count (expr_eqb a) m2) (m1 ++ m2).

(** The coefficient of a monomial: the sum over the terms that have it. *)
Definition coeff_of (p : polynomial) (m : seq Expression) : rat :=
  foldr (fun t acc => if mono_eqb t.2 m then t.1 + acc else acc) 0 p.

(** Modelled from the spec: the test for "the determinant is symbolically
    the zero expression": multiplied out and with like terms collected,
    every coefficient is zero. *)
Definition is_zero (e : Expression) : bool :=
  let p := to_poly e in all (fun t => coeff_of p t.2 == 0) p.

(** Modelled from the spec: [inverse(M)], the [inv] method of the algebra
    library's matrices: adjugate over determinant, entrywise; a matrix
    that is not square, or whose determinant is the zero expression, is
    refused. *)
Definition inv (M : Matrix) : exc Matrix :=
  if ~~ is_square M then raise NonSquareMatrixError
  else
    let d := determinant M in
    if is_zero d then raise NonInvertibleMatrixError
    else ret [seq [seq e_div a d | a <- row] | row <- adjugate M].

End Sym.

Import Sym.

(* ===================================================================== *)
(** * metric.py *)
(* ===================================================================== *)

(** The attributes that [Metric.__init__] sets, in the order it sets
    them.  Coordinates and velocities are symbols, kept by name. *)
Record Metric : Type := mkMetric {
  g : Matrix;
  g_inv : Matrix;
  coordinates : seq string;
  dim : nat;
  velocities : seq string;
  geodesic_rhs : seq Expression
}.

(** [Metric.deriv]: [sympy.diff(self.g[mu, nu], self.coordinates[rho])]. *)
Definition deriv (self : Metric) (mu nu rho : int) : exc Expression :=
  e <- matrix_getitem (g self) mu nu ;;
  x <- getitem (coordinates self) rho ;;
  ret (differentiate e x).

(** The summand of [compute_christoffel] for one [nu]:
    [1.0/2.0*self.g_inv[mu, nu]*(self.deriv(nu, rho, sigma)
       + self.deriv(nu, sigma, rho) - self.deriv(rho, sigma, nu))]. *)
Definition christoffel_term (self : Metric) (mu rho sigma nu : int)
  : exc Expression :=
  gi <- matrix_getitem (g_inv self) mu nu ;;
  d1 <- deriv self nu rho sigma ;;
  d2 <- deriv self nu sigma rho ;;
  d3 <- deriv self rho sigma nu ;;
  ret (e_mul (e_mul (Constant (1 / 2)) gi) (e_sub (e_add d1 d2) d3)).

(** [Metric.compute_christoffel]. *)
Definition compute_christoffel (self : Metric) (mu rho sigma : int)
  : exc Expression :=
  foldM (fun result nu =>
           t <- christoffel_term self mu rho sigma nu ;;
           ret (e_add result t))
        (Constant 0) (range (dim self)).

(** The summand of [compute_geodesic_rhs] for one pair [rho, sigma]:
    [self.compute_christoffel(mu, rho, sigma)*self.velocities[rho]
       *self.velocities[sigma]]. *)
Definition geodesic_term (self : Metric) (mu rho sigma : int)
  : exc Expression :=
  c <- compute_christoffel self mu rho sigma ;;
  u_rho <- getitem (velocities self) rho ;;
  u_sigma <- getitem (velocities self) sigma ;;
  ret (e_mul (e_mul c (Symbol u_rho)) (Symbol u_sigma)).

(** [Metric.compute_geodesic_rhs]. *)
Definition compute_geodesic_rhs (self : Metric) (mu : int) : exc Expression :=
  foldM (fun result rho =>
           foldM (fun result sigma =>
                    t <- geodesic_term self mu rho sigma ;;
                    ret (e_sub result t))
                 result (range (dim self)))
        (Constant 0) (range (dim self)).

(** The object as it is when [__init__] reaches its last statement: every
    attribute but [geodesic_rhs] is set. *)
Definition partial_self (g0 g_inv0 : Matrix) (coordinates0 : seq string)
  : Metric :=
  {| g := g0;
     g_inv := g_inv0;
     coordinates := coordinates0;
     dim := size coordinates0;
     velocities := [:: "u0"; "u1"; "u2"; "u3"]%string;
     geodesic_rhs := [::] |}.

Definition set_geodesic_rhs (self : Metric) (rhs : seq Expression) : Metric :=
  {| g := g self;
     g_inv := g_inv self;
     coordinates := coordinates self;
     dim := dim self;
     velocities := velocities self;
     geodesic_rhs := rhs |}.

(** [Metric.__init__], that is the call [Metric(g, coordinates)]. *)
Definition Metric_init (g0 : Matrix) (coordinates0 : seq string)
  : exc Metric :=
  g_inv0 <- inv g0 ;;
  let self := partial_self g0 g_inv0 coordinates0 in
  rhs <- mapM (compute_geodesic_rhs self) (range (dim self)) ;;
  ret (set_geodesic_rhs self rhs).

(** ** The presets of [getMetric] *)

Module Preset.

Definition t : Expression := Symbol "t".
Definition r : Expression := Symbol "r".
Definition theta : Expression := Symbol "theta".
Definition phi : Expression := Symbol "phi".
Definition M : Expression := Symbol "M".
Definition a : Expression := Symbol "a".

Definition coordinates : seq string := [:: "t"; "r"; "theta"; "phi"]%string.

Definition two : Expression := e_int 2.
Definition zero : Expression := e_int 0.
Definition one : Expression := e_int 1.

(** [sigma = r**2 + a**2*sympy.cos(theta)**2] *)
Definition sigma : Expression :=
  e_add (e_pow r two) (e_mul (e_pow a two) (e_pow (Cos theta) two)).

(** [delta = r**2 - 2*M*r + a**2] *)
Definition delta : Expression :=
  e_add (e_sub (e_pow r two) (e_mul (e_mul two M) r)) (e_pow a two).

(** [-2*a*M*r/sigma*sympy.sin(theta)**2] *)
Definition kerr_cross : Expression :=
  e_mul (e_div (e_mul (e_mul (e_mul (e_int (-2)) a) M) r) sigma)
        (e_pow (Sin theta) two).

Definition kerr_g : Matrix :=
  [:: [:: e_neg (e_sub one (e_div (e_mul (e_mul two M) r) sigma));
          zero; zero; kerr_cross];
      [:: zero; e_div sigma delta; zero; zero];
      [:: zero; zero; sigma; zero];
      [:: kerr_cross; zero; zero;
          e_mul
            (e_add (e_add (e_pow r two) (e_pow a two))
               (e_mul
                  (e_div (e_mul (e_mul (e_mul two M) r) (e_pow a two)) sigma)
                  (e_pow (Sin theta) two)))
            (e_pow (Sin theta) two)]].

Definition schwarzschild_g : Matrix :=
  [:: [:: e_neg (e_sub one (e_div (e_mul two M) r)); zero; zero; zero];
      [:: zero; e_pow (e_sub one (e_div (e_mul two M) r)) (e_int (-1));
          zero; zero];
      [:: zero; zero; e_pow r two; zero];
      [:: zero; zero; zero; e_mul (e_pow r two) (e_pow (Sin theta) two)]].

End Preset.

(** [getMetric], with the class it instantiates as a parameter: [ctor] is
    the call [Metric(g, coordinates)]. *)
Definition getMetric_with
    (ctor : Matrix -> seq string -> exc Metric) (name : string)
  : exc (Metric * seq string) :=
  kerr <- ctor Preset.kerr_g Preset.coordinates ;;
  schwarzschild <- ctor Preset.schwarzschild_g Preset.coordinates ;;
  let metrics :=
    [:: ("kerr"%string,
         (kerr, [:: "t"; "r"; "theta"; "phi"; "M"; "a"]%string));
        ("schwarzschild"%string,
         (schwarzschild, [:: "t"; "r"; "theta"; "phi"; "M"]%string))] in
  dict_getitem metrics name.

(** [getMetric(name)]. *)
Definition getMetric (name : string) : exc (Metric * seq string) :=
  getMetric_with Metric_init name.

(* ===================================================================== *)
(** * Notions used in the statements *)
(* ===================================================================== *)

(** Every element of a list satisfies [P]. *)
Fixpoint all_prop {T : Type} (P : T -> Prop) (l : seq T) : Prop :=
  if l is x :: l' then P x /\ all_prop P l' else True.

(** The value of a monomial and of a polynomial at a point. *)
Definition mono_value (F : numFieldType) (p : point F) (m : seq Expression)
  : F :=
  foldr (fun a acc => eval p a * acc) 1 m.

Definition poly_value (F : numFieldType) (p : point F) (q : polynomial) : F :=
  foldr (fun t acc => ratr t.1 * mono_value p t.2 + acc) 0 q.




(** [M] is an [n] by [n] matrix. *)
Definition square_of (n : nat) (M : Matrix) : bool :=
  (size M == n) && all (fun row => size row == n) M.

(** The partial derivative with respect to [coordinates[k]]. *)
Definition d_coord (self : Metric) (k : nat) (e : Expression) : Expression :=
  differentiate e (nth ""%string (coordinates self) k).

(** The velocity symbol [velocities[k]]. *)
Definition velocity (self : Metric) (k : nat) : string :=
  nth ""%string (velocities self) k.

(** What [compute_christoffel] returns, or zero if it raises. *)
Definition christoffel (self : Metric) (mu rho sigma : nat) : Expression :=
  if compute_christoffel self mu rho sigma is inr c then c else Constant 0.

(** The summand of [compute_christoffel] at in-range indices. *)
Definition christoffel_summand (self : Metric) (mu rho sigma nu : nat)
  : Expression :=
  e_mul (e_mul (Constant (1 / 2)) (entry (g_inv self) mu nu))
        (e_sub (e_add (d_coord self sigma (entry (g self) nu rho))
                      (d_coord self rho (entry (g self) nu sigma)))
               (d_coord self nu (entry (g self) rho sigma))).

(** A computation whose only possible exception is [IndexError]. *)
Definition index_only {T : Type} (c : exc T) : bool :=
  match c with
  | inl IndexError => true
  | inl _ => false
  | inr _ => true
  end.

(** The state of an object between the statements of [__init__] and after
    it: square matrices of the same side, [dim] the number of
    coordinates, the four velocity symbols. *)
Definition well_formed (s : nat) (self : Metric) : bool :=
  [&& square_of s (g self), square_of s (g_inv self),
      dim self == size (coordinates self)
    & velocities self == [:: "u0"; "u1"; "u2"; "u3"]%string].

(** What a call [Metric(g0, coords)] that returned [m] guarantees. *)
Record constructed (g0 : Matrix) (coords : seq string) (m : Metric)
  : Prop := Constructed {
  c_g : g m = g0;
  c_coordinates : coordinates m = coords;
  c_dim : dim m = size coords;
  c_inv : inv g0 = inr (g_inv m);
  c_wf : well_formed (size g0) m;
  c_side : (dim m <= size g0)%N;
  c_four : (dim m <= 4)%N;
  c_size : size (geodesic_rhs m) = dim m;
  c_eager : mapM (compute_geodesic_rhs m) (range (dim m)) =
            inr (geodesic_rhs m);
  c_rhs : forall mu : nat, (mu < dim m)%N ->
          compute_geodesic_rhs m mu =
          inr (nth (Constant 0) (geodesic_rhs m) mu)
}.

(** The value of a matrix of expressions at a point. *)
Definition mx_at (F : numFieldType) (p : point F) (n : nat) (M : Matrix)
  : 'M[F]_n :=
  \matrix_(i, j) eval p (entry M i j).

(** ** Concrete inputs, for the examples *)

Module Ex.

(** The flat metric of the plane, [Matrix([[1, 0], [0, 1]])]. *)
Definition flat2 : Matrix :=
  [:: [:: e_int 1; e_int 0]; [:: e_int 0; e_int 1]].

(** An invertible matrix that is not symmetric, [Matrix([[1, x], [0, 1]])]. *)
Definition skew2 : Matrix :=
  [:: [:: e_int 1; Symbol "x"]; [:: e_int 0; e_int 1]].


(** [Matrix([[0]])]. *)
Definition zero1 : Matrix := [:: [:: e_int 0]].

Definition x1 : seq string := [:: "x"]%string.
Definition xy : seq string := [:: "x"; "y"]%string.
Definition xyz : seq string := [:: "x"; "y"; "z"]%string.

(** A rational point: every symbol is 1, and the elementary functions are
    taken to be the identity (no example below goes through them). *)
Definition pt : point rat :=
  {| env := fun _ => 1; fsin := id; fcos := id; fpow := fun x _ => x |}.

(** A point outside the horizon of the Schwarzschild metric: [r = 10],
    [M = 1], [theta] a right angle (sine 1, cosine 0), at rest ([u0 = 1],
    the other velocities 0). *)
Definition exterior_pt : point rat :=
  {| env := fun s =>
       if s == "r"%string then 10%:Q
       else if (s == "M"%string) || (s == "u0"%string) then 1 else 0;
     fsin := fun _ => 1;
     fcos := fun _ => 0;
     fpow := fun x _ => x |}.

(** Coordinates of which the first has the name of a velocity symbol. *)
Definition u0y : seq string := [:: "u0"; "y"]%string.

(** A matrix that mentions a velocity symbol, [Matrix([[u1, 0], [0, 1]])]. *)
Definition diag_u1 : Matrix :=
  [:: [:: Symbol "u1"; e_int 0]; [:: e_int 0; e_int 1]].


End Ex.

(* ===================================================================== *)
(** * Lemmas on the error monad and on Python indexing *)
(* ===================================================================== *)

Section MonadLemmas.

Variables T U : Type.

Lemma returnsP (c : exc T) : reflect (exists x, c = inr x) (returns c).
Proof.
case: c => [e|x] /=; constructor; last by exists x.
by case.
Qed.

Lemma raisesN (c : exc T) : raises c = ~~ returns c.
Proof. by case: c. Qed.

Lemma returns_bind (c : exc T) (k : T -> exc U) (b : bool) :
  (forall x, c = inr x -> returns (k x) = b) ->
  returns (bind c k) = returns c && b.
Proof. by case: c => [e|x] //= ->. Qed.

Lemma bind_inr (c : exc T) (k : T -> exc U) (y : U) :
  bind c k = inr y -> exists2 x, c = inr x & k x = inr y.
Proof. by case: c => [e|x] //= kx; exists x. Qed.

End MonadLemmas.

Section LoopLemmas.

Variables T U A : Type.

(** When the success of the body does not depend on the accumulator, the
    loop returns exactly when every iteration does. *)
Lemma returns_foldM (body : A -> T -> exc A) (ok : T -> bool)
    (l : seq T) (a : A) :
  (forall acc x, returns (body acc x) = ok x) ->
  returns (foldM body a l) = all ok l.
Proof.
move=> H; elim: l a => [|x l IH] a //=.
by rewrite (returns_bind (b := all ok l)) ?H // => acc _; apply: IH.
Qed.

Lemma returns_mapM (f : T -> exc U) (l : seq T) :
  returns (mapM f l) = all (fun x => returns (f x)) l.
Proof.
elim: l => [|x l IH] //=.
rewrite (returns_bind (b := all (fun x => returns (f x)) l)) // => y _.
by rewrite -IH; case: (mapM f l).
Qed.

(** What a comprehension that returned holds. *)
Lemma mapM_inr (f : T -> exc U) (l : seq T) (ys : seq U) (x0 : T) (y0 : U) :
  mapM f l = inr ys ->
  size ys = size l /\
  forall i, (i < size l)%N -> f (nth x0 l i) = inr (nth y0 ys i).
Proof.
elim: l ys => [|x l IH] ys /=; first by case=> <-.
move=> H; case: (bind_inr H) => y fx {H} H.
case: (bind_inr H) => zs /IH [sz nz] [<-] /=.
by rewrite sz; split=> // -[|i] //= /nz.
Qed.

End LoopLemmas.

(** A loop whose body always returns is a left fold. *)
Lemma foldM_foldl (T : eqType) (A : Type) (body : A -> T -> exc A)
    (step : A -> T -> A) (l : seq T) (a : A) :
  (forall acc x, x \in l -> body acc x = inr (step acc x)) ->
  foldM body a l = inr (foldl step a l).
Proof.
elim: l a => [|x l IH] a H //=.
rewrite H ?mem_head //=.
by apply: IH => acc y yl; apply: H; rewrite in_cons yl orbT.
Qed.

Section Indexing.

Lemma norm_indexE (n : nat) (i : int) :
  norm_index n i =
  match i with
  | Posz k => if (k < n)%N then Some k else None
  | Negz k => if (k < n)%N then Some (n - k.+1)%N else None
  end.
Proof.
rewrite /norm_index; case: i => k /=.
  by rewrite ltz_nat.
rewrite NegzE addrC subr_ge0 lez_nat.
have -> : (n%:Z - (k.+1)%:Z < n%:Z).
  by rewrite -subr_gt0 opprB addrCA subrr addr0.
by rewrite andbT; case: ltnP => // kn; rewrite distnEl.
Qed.

Lemma norm_index_lt (n : nat) (i : int) (k : nat) :
  norm_index n i = Some k -> (k < n)%N.
Proof.
rewrite norm_indexE; case: i => j; case: ltnP => // jn [<-] //.
by rewrite ltn_subrL (leq_trans _ jn).
Qed.

Lemma norm_index_range (n : nat) (i : int) :
  isSome (norm_index n i) = in_range n i.
Proof.
rewrite norm_indexE /in_range; case: i => k.
  rewrite ltz_nat (@le_trans _ _ 0) ?oppr_le0 //=.
  by case: ltnP.
rewrite NegzE lerN2 lez_nat (@lt_le_trans _ _ 0) ?oppr_lt0 // andbT.
by case: ltnP.
Qed.

Lemma norm_index_nat (n k : nat) : (k < n)%N -> norm_index n (Posz k) = Some k.
Proof. by rewrite norm_indexE => ->. Qed.

Variable T : Type.

Lemma ohead_drop (x0 : T) (l : seq T) (k : nat) :
  (k < size l)%N -> ohead (drop k l) = Some (nth x0 l k).
Proof. by elim: l k => [|x l IH] [|k] //= /IH. Qed.

Lemma getitemE (x0 : T) (l : seq T) (i : int) :
  getitem l i =
  if norm_index (size l) i is Some k then inr (nth x0 l k) else inl IndexError.
Proof.
rewrite /getitem; case E: (norm_index (size l) i) => [k|] //.
by rewrite (ohead_drop x0) ?(norm_index_lt E).
Qed.

Lemma returns_getitem (l : seq T) (i : int) :
  returns (getitem l i) = in_range (size l) i.
Proof.
rewrite -norm_index_range /getitem.
case E: (norm_index (size l) i) => [k|] //=.
case: l E => [|x l] E; first by move/norm_index_lt: E.
by rewrite (ohead_drop x) ?(norm_index_lt E).
Qed.

Lemma getitem_nat (x0 : T) (l : seq T) (k : nat) :
  (k < size l)%N -> getitem l (Posz k) = inr (nth x0 l k).
Proof. by move=> kl; rewrite (getitemE x0) norm_index_nat. Qed.

(** An accepted index selects an element of the list. *)
Lemma getitem_inr (x0 : T) (l : seq T) (i : int) (x : T) :
  getitem l i = inr x -> exists2 k, (k < size l)%N & x = nth x0 l k.
Proof.
rewrite (getitemE x0); case E: (norm_index (size l) i) => [k|] // [<-].
by exists k => //; apply: norm_index_lt E.
Qed.

End Indexing.

(* ===================================================================== *)
(** * Lemmas on matrices of expressions *)
(* ===================================================================== *)

Section Shapes.

Lemma is_squareE (M : Matrix) : is_square M = square_of (size M) M.
Proof. by rewrite /square_of eqxx. Qed.

Lemma square_of_row (n : nat) (M : Matrix) (i : nat) :
  square_of n M -> (i < n)%N -> size (nth [::] M i) = n.
Proof.
case/andP=> /eqP sM /all_nthP => /(_ [::] i) H iN.
by apply/eqP/H; rewrite sM.
Qed.

Lemma returns_matrix_getitem (n : nat) (M : Matrix) (i j : int) :
  square_of n M ->
  returns (matrix_getitem M i j) = in_range n i && in_range n j.
Proof.
move=> sq; rewrite /matrix_getitem.
have sM : size M = n by case/andP: sq => /eqP.
have := returns_getitem M i; rewrite sM.
case E: (getitem M i) => [e|row] /= <- //.
case: (getitem_inr [::] E) => k; rewrite sM => kn ->.
by rewrite returns_getitem (square_of_row sq).
Qed.

Lemma matrix_getitem_nat (n : nat) (M : Matrix) (i j : nat) :
  square_of n M -> (i < n)%N -> (j < n)%N ->
  matrix_getitem M i j = inr (entry M i j).
Proof.
move=> sq iN jN; rewrite /matrix_getitem.
have sM : size M = n by case/andP: sq => /eqP.
rewrite (getitem_nat [::]) ?sM //=.
by rewrite (getitem_nat (Constant 0)) ?(square_of_row sq).
Qed.

Lemma in_range_nat (n k : nat) : in_range n k = (k < n)%N.
Proof. by rewrite -norm_index_range norm_indexE; case: ltnP. Qed.

Lemma in_range_leq (m n : nat) (i : int) :
  (m <= n)%N -> in_range m i -> in_range n i.
Proof.
move=> mn /andP [lo hi]; apply/andP; split.
  by apply: le_trans lo; rewrite lerN2 lez_nat.
by apply: lt_le_trans hi _; rewrite lez_nat.
Qed.

End Shapes.

(* ===================================================================== *)
(** * Lemmas on the methods of [Metric] *)
(* ===================================================================== *)

Section IndexOnly.

Variables T U : Type.

Lemma index_only_raises (c : exc T) :
  index_only c -> raises c -> c = inl IndexError.
Proof. by case: c => [[]|]. Qed.

Lemma index_only_getitem (l : seq T) (i : int) : index_only (getitem l i).
Proof.
by rewrite /getitem; case: norm_index => // k; case: ohead.
Qed.

Lemma index_only_bind (c : exc T) (k : T -> exc U) :
  index_only c -> (forall x, index_only (k x)) -> index_only (bind c k).
Proof. by case: c => [[|?| |]|x] //= _; apply. Qed.

End IndexOnly.

Lemma index_only_foldM (T A : Type) (body : A -> T -> exc A) (l : seq T)
    (a : A) :
  (forall acc x, index_only (body acc x)) -> index_only (foldM body a l).
Proof.
move=> H; elim: l a => [|x l IH] a //=.
by apply: index_only_bind.
Qed.

Lemma index_only_matrix_getitem (M : Matrix) (i j : int) :
  index_only (matrix_getitem M i j).
Proof.
by apply: index_only_bind => [|row]; apply: index_only_getitem.
Qed.

Lemma index_only_deriv (self : Metric) (a b c : int) :
  index_only (deriv self a b c).
Proof.
apply: index_only_bind => [|e]; first exact: index_only_matrix_getitem.
by apply: index_only_bind => [|x] //; apply: index_only_getitem.
Qed.

Lemma index_only_christoffel_term (self : Metric) (mu rho sigma nu : int) :
  index_only (christoffel_term self mu rho sigma nu).
Proof.
apply: index_only_bind => [|gi]; first exact: index_only_matrix_getitem.
do 3![apply: index_only_bind => [|?]; first exact: index_only_deriv].
by [].
Qed.

Lemma index_only_compute_christoffel (self : Metric) (mu rho sigma : int) :
  index_only (compute_christoffel self mu rho sigma).
Proof.
apply: index_only_foldM => acc nu.
by apply: index_only_bind => //; apply: index_only_christoffel_term.
Qed.

(** Induction on expressions, through the lists of sums and products. *)
Lemma Expression_induction (P : Expression -> Prop) :
  (forall c, P (Constant c)) ->
  (forall s, P (Symbol s)) ->
  (forall ts, all_prop P ts -> P (Add ts)) ->
  (forall fs, all_prop P fs -> P (Mul fs)) ->
  (forall b k, P b -> P k -> P (Pow b k)) ->
  (forall u, P u -> P (Neg u)) ->
  (forall u, P u -> P (Sin u)) ->
  (forall u, P u -> P (Cos u)) ->
  forall e, P e.
Proof.
move=> HC HS HA HM HP HN Hs Hc; fix IH 1 => e.
case: e => [c|s|ts|fs|b k|u|u|u].
- exact: HC.
- exact: HS.
- by apply: HA; elim: ts => [|t ts IHts] //=; split.
- by apply: HM; elim: fs => [|f fs IHfs] //=; split.
- by apply: HP.
- by apply: HN.
- by apply: Hs.
- by apply: Hc.
Qed.

(** Structural equality decides equality. *)
Lemma expr_eqb_eq (a b : Expression) : expr_eqb a b <-> a = b.
Proof.
elim/Expression_induction: a b.
- by move=> c [d| | | | | | |] //=; split=> [/eqP ->|[->]].
- by move=> s [|t| | | | | |] //=; split=> [/eqP ->|[->]].
- move=> ts IH [| |ts'| | | | |] //=.
  elim: ts IH ts' => [|x l IHl] /= IH [|y l'] //=.
  case: IH => Hx /IHl Hl; split.
    by case/andP => /Hx -> /Hl [->].
  by case=> /Hx -> El; rewrite (proj2 (Hl l')) ?El.
- move=> ts IH [| | |ts'| | | |] //=.
  elim: ts IH ts' => [|x l IHl] /= IH [|y l'] //=.
  case: IH => Hx /IHl Hl; split.
    by case/andP => /Hx -> /Hl [->].
  by case=> /Hx -> El; rewrite (proj2 (Hl l')) ?El.
- move=> a1 a2 H1 H2 [| | | |b1 b2| | |] //=; split.
    by case/andP => /H1 -> /H2 ->.
  by case=> /H1 -> /H2 ->.
- by move=> u H [| | | | |v| |] //=; split=> [/H ->|[/H]].
- by move=> u H [| | | | | |v|] //=; split=> [/H ->|[/H]].
- by move=> u H [| | | | | | |v] //=; split=> [/H ->|[/H]].
Qed.

Lemma expr_eqbP : Equality.axiom expr_eqb.
Proof. by move=> a b; apply: (iffP idP) => /expr_eqb_eq. Qed.

HB.instance Definition _ := hasDecEq.Build Expression expr_eqbP.

Lemma mono_eqbE (m1 m2 : seq Expression) : mono_eqb m1 m2 = perm_eq m1 m2.
Proof.
rewrite /mono_eqb /perm_eq; apply: eq_all => a /=.
by congr (_ == _); apply: eq_count => b /=; rewrite eq_sym.
Qed.

Section PolyValue.

Variables (F : numFieldType) (p : point F).

Lemma mono_valueE (m : seq Expression) :
  mono_value p m = \prod_(a <- m) eval p a.
Proof.
by elim: m => [|a m IH]; rewrite ?big_nil // big_cons -IH.
Qed.

Lemma poly_valueE (q : polynomial) :
  poly_value p q = \sum_(t <- q) ratr t.1 * mono_value p t.2.
Proof.
by elim: q => [|t q IH]; rewrite ?big_nil // big_cons -IH.
Qed.

Lemma poly_value_cat (q1 q2 : polynomial) :
  poly_value p (q1 ++ q2) = poly_value p q1 + poly_value p q2.
Proof. by rewrite !poly_valueE big_cat. Qed.

Lemma poly_value_atom (e : Expression) :
  poly_value p [:: (1, [:: e])] = eval p e.
Proof. by rewrite /= rmorph1 mul1r mulr1 addr0. Qed.

Lemma poly_value_mul (q1 q2 : polynomial) :
  poly_value p (poly_mul q1 q2) = poly_value p q1 * poly_value p q2.
Proof.
rewrite !poly_valueE /poly_mul big_flatten /= big_map mulr_suml.
apply: eq_bigr => t _; rewrite big_map mulr_sumr; apply: eq_bigr => u _ /=.
by rewrite rmorphM !mono_valueE big_cat /= mulrACA.
Qed.

Lemma poly_value_exp (q : polynomial) (k : nat) :
  poly_value p (poly_exp q k) = poly_value p q ^+ k.
Proof.
elim: k => [|k IH]; first by rewrite /= rmorph1 mulr1 addr0 expr0.
by rewrite [poly_exp _ _]/= poly_value_mul IH exprS.
Qed.

Lemma poly_value_neg (q : polynomial) :
  poly_value p [seq (- t.1, t.2) | t <- q] = - poly_value p q.
Proof.
rewrite !poly_valueE big_map -sumrN; apply: eq_bigr => t _ /=.
by rewrite rmorphN mulNr.
Qed.

(** Multiplying out keeps the value. *)
Lemma to_poly_value (e : Expression) : poly_value p (to_poly e) = eval p e.
Proof.
elim/Expression_induction: e.
- by move=> c; rewrite /= mulr1 addr0.
- by move=> s; rewrite poly_value_atom.
- elim=> [|t ts IHts] //= [Ht Hts].
  by rewrite poly_value_cat Ht; congr (_ + _); apply: IHts.
- elim=> [|f fs IHfs] /= [].
    by rewrite rmorph1 mulr1 addr0.
  by move=> Hf Hfs; rewrite poly_value_mul Hf; congr (_ * _); apply: IHfs.
- move=> b k Hb _; case: k; try by move=> *; rewrite poly_value_atom.
  move=> c; rewrite [to_poly _]/= [eval p _]/=.
  case: ifP => [/andP [-> c0]|_]; last by rewrite poly_value_atom.
  by rewrite poly_value_exp Hb -{2}(gez0_abs c0).
- by move=> u Hu; rewrite [to_poly _]/= poly_value_neg Hu.
- by move=> u _; rewrite poly_value_atom.
- by move=> u _; rewrite poly_value_atom.
Qed.

End PolyValue.

Section ZeroTest.

Variables (F : numFieldType) (p : point F).

Lemma coeff_ofE (q : polynomial) (m : seq Expression) :
  coeff_of q m = \sum_(t <- q | perm_eq t.2 m) t.1.
Proof.
elim: q => [|t q IH]; rewrite ?big_nil // big_cons -IH /=.
by rewrite mono_eqbE.
Qed.

Lemma mono_value_perm (m1 m2 : seq Expression) :
  perm_eq m1 m2 -> mono_value p m1 = mono_value p m2.
Proof. by move=> pm; rewrite !mono_valueE; apply: perm_big. Qed.

(** A polynomial whose coefficients are all zero once like terms are
    collected has the value zero. *)
Lemma zero_coefficients (n : nat) (q : polynomial) :
  (size q <= n)%N -> all (fun t => coeff_of q t.2 == 0) q ->
  poly_value p q = 0.
Proof.
elim: n q => [|n IH] [|t0 q'] // szq Hall.
set q := t0 :: q' in Hall *.
pose P := fun t : rat * seq Expression => perm_eq t.2 t0.2.
rewrite poly_valueE (bigID P) /=.
have -> : \sum_(t <- q | P t) ratr t.1 * mono_value p t.2 = 0.
  have -> : \sum_(t <- q | P t) ratr t.1 * mono_value p t.2 =
            \sum_(t <- q | P t) ratr t.1 * mono_value p t0.2.
    by apply: eq_bigr => t Pt; rewrite (mono_value_perm Pt).
  rewrite -mulr_suml -rmorph_sum /= -coeff_ofE.
  by rewrite (eqP (allP Hall t0 (mem_head _ _))) rmorph0 mul0r.
rewrite add0r -big_filter -poly_valueE; apply: IH.
  rewrite size_filter /= /P perm_refl /= add0n.
  by apply: leq_trans (count_size _ _) _; rewrite -ltnS.
apply/allP => t; rewrite mem_filter => /andP [nPt tq].
rewrite -(eqP (allP Hall t tq)) !coeff_ofE big_filter_cond; apply/eqP.
apply: eq_bigl => u /=; case E: (perm_eq u.2 t.2); rewrite ?andbF // andbT.
apply: contra nPt; rewrite /P => Pu.
by apply: perm_trans Pu; rewrite perm_sym.
Qed.

(** The zero test is sound: what it accepts is zero at every point. *)
Lemma is_zero_sound (e : Expression) : is_zero e -> eval p e = 0.
Proof.
by move=> z; rewrite -to_poly_value; apply: (zero_coefficients (leqnn _)).
Qed.








End ZeroTest.

Lemma all_range (P : int -> bool) (n : nat) :
  all P (range n) = all (fun k : nat => P k) (iota 0 n).
Proof. by rewrite /range all_map. Qed.

Lemma all_range_const (P : int -> bool) (b : bool) (n : nat) :
  (0 < n)%N -> (forall k : nat, (k < n)%N -> P k = b) -> all P (range n) = b.
Proof.
move=> n0 H; rewrite all_range; case: b H => H.
  by apply/allP => k; rewrite mem_iota add0n => /andP [_ /H].
by apply/negbTE/allPn; exists 0%N; rewrite ?mem_iota // H.
Qed.

Lemma all_range_nth (P : int -> bool) (n k : nat) :
  all P (range n) -> (k < n)%N -> P k.
Proof.
by rewrite all_range => /allP H kn; apply: H; rewrite mem_iota add0n.
Qed.

Lemma mem_range (n : nat) (x : int) :
  x \in range n -> exists2 k : nat, (k < n)%N & x = k.
Proof.
by case/mapP => k; rewrite mem_iota add0n => /andP [_ kn] ->; exists k.
Qed.

Section EvalLemmas.

Variables (F : numFieldType) (p : point F).

Lemma eval_add (a b : Expression) : eval p (e_add a b) = eval p a + eval p b.
Proof. by rewrite /= addr0. Qed.

Lemma eval_sub (a b : Expression) : eval p (e_sub a b) = eval p a - eval p b.
Proof. by rewrite /= addr0. Qed.

Lemma eval_mul (a b : Expression) : eval p (e_mul a b) = eval p a * eval p b.
Proof. by rewrite /= mulr1. Qed.

Lemma eval_div (a b : Expression) : eval p (e_div a b) = eval p a / eval p b.
Proof.
rewrite /e_div [LHS]/= mulr1.
have -> : -1 = (-1)%:~R :> rat by rewrite rmorphN.
by rewrite numq_int exprN1.
Qed.

Lemma eval_half : eval p (Constant (1 / 2)) = 2^-1.
Proof. by rewrite /= div1r fmorphV rmorph_nat. Qed.

Lemma eval_zero : eval p (Constant 0) = 0.
Proof. by rewrite /= rmorph0. Qed.

Lemma eval_signed (k : nat) (e : Expression) :
  eval p (signed k e) = (-1) ^+ k * eval p e.
Proof.
rewrite /signed -signr_odd; case: (odd k); rewrite /= ?expr0 ?expr1.
  by rewrite mulN1r.
by rewrite mul1r.
Qed.

Lemma eval_Add (ts : seq Expression) :
  eval p (Add ts) = \sum_(t <- ts) eval p t.
Proof.
by rewrite /=; elim: ts => [|t ts IH]; rewrite ?big_nil // big_cons -IH.
Qed.

Lemma eval_foldl_add (T : Type) (tv : T -> Expression) (l : seq T)
    (a : Expression) :
  eval p (foldl (fun acc x => e_add acc (tv x)) a l) =
  eval p a + \sum_(x <- l) eval p (tv x).
Proof.
elim: l a => [|x l IH] a; first by rewrite big_nil addr0.
by rewrite [foldl _ _ _]/= IH eval_add big_cons addrA.
Qed.

Lemma eval_foldl_sub (T : Type) (tv : T -> Expression) (l : seq T)
    (a : Expression) :
  eval p (foldl (fun acc x => e_sub acc (tv x)) a l) =
  eval p a - \sum_(x <- l) eval p (tv x).
Proof.
elim: l a => [|x l IH] a; first by rewrite big_nil subr0.
by rewrite [foldl _ _ _]/= IH eval_sub big_cons opprD addrA.
Qed.

Lemma sum_range (f : int -> F) (n : nat) :
  \sum_(x <- range n) f x = \sum_(0 <= k < n) f k.
Proof. by rewrite /range big_map /index_iota subn0. Qed.

End EvalLemmas.

Section Methods.

Variables (s : nat) (self : Metric).
Hypothesis wf : well_formed s self.

Local Notation n := (dim self).

Lemma wf_g : square_of s (g self).
Proof. by case/and4P: wf. Qed.

Lemma wf_g_inv : square_of s (g_inv self).
Proof. by case/and4P: wf. Qed.

Lemma wf_dim : size (coordinates self) = n.
Proof. by case/and4P: wf => _ _ /eqP. Qed.

Lemma wf_velocities : velocities self = [:: "u0"; "u1"; "u2"; "u3"]%string.
Proof. by case/and4P: wf => _ _ _ /eqP. Qed.

Lemma deriv_nat (a b c : nat) :
  (a < s)%N -> (b < s)%N -> (c < n)%N ->
  deriv self a b c = inr (d_coord self c (entry (g self) a b)).
Proof.
move=> aS bS cN; rewrite /deriv (matrix_getitem_nat wf_g) //=.
by rewrite (getitem_nat ""%string) ?wf_dim.
Qed.

Lemma returns_deriv (a b c : int) :
  returns (deriv self a b c) =
  [&& in_range s a, in_range s b & in_range n c].
Proof.
rewrite /deriv andbA -(returns_matrix_getitem _ _ wf_g).
case: (matrix_getitem _ _ _) => [e|x] //=.
have := returns_getitem (coordinates self) c; rewrite wf_dim.
by case: (getitem _ _) => [e|y] /= <-.
Qed.

Lemma christoffel_term_nat (mu rho sigma nu : nat) :
  (n <= s)%N -> (mu < s)%N -> (rho < n)%N -> (sigma < n)%N -> (nu < n)%N ->
  christoffel_term self mu rho sigma nu =
  inr (christoffel_summand self mu rho sigma nu).
Proof.
move=> ns muS rhoN sigmaN nuN.
have lt_s k : (k < n)%N -> (k < s)%N by move=> kn; apply: leq_trans kn ns.
rewrite /christoffel_term (matrix_getitem_nat wf_g_inv) // ?lt_s //=.
by rewrite !deriv_nat // ?lt_s.
Qed.

Lemma returns_christoffel_term (mu rho sigma : int) (nu : nat) :
  (n <= s)%N -> (nu < n)%N ->
  returns (christoffel_term self mu rho sigma nu) =
  [&& in_range s mu, in_range n rho & in_range n sigma].
Proof.
move=> ns nuN; rewrite /christoffel_term.
have nuS : in_range s nu by rewrite in_range_nat (leq_trans nuN).
have nuR : in_range n nu by rewrite in_range_nat.
have up := in_range_leq ns.
have -> : [&& in_range s mu, in_range n rho & in_range n sigma] =
          [&& returns (matrix_getitem (g_inv self) mu nu),
              returns (deriv self nu rho sigma),
              returns (deriv self nu sigma rho)
            & returns (deriv self rho sigma nu)].
  rewrite (returns_matrix_getitem _ _ wf_g_inv) !returns_deriv nuS nuR.
  case Hr: (in_range n rho); case Hs: (in_range n sigma);
    by rewrite ?(up _ Hr) ?(up _ Hs) /= ?andbT ?andbF.
case: (matrix_getitem _ _ _) => [?|?] //=.
by do 3![case: (deriv _ _ _ _) => [?|?] //=].
Qed.

Lemma returns_compute_christoffelE (mu rho sigma : int) :
  returns (compute_christoffel self mu rho sigma) =
  all (fun nu => returns (christoffel_term self mu rho sigma nu)) (range n).
Proof.
apply: returns_foldM => acc nu.
by case: (christoffel_term _ _ _ _ _).
Qed.

Lemma returns_compute_christoffel (mu rho sigma : int) :
  (n <= s)%N -> (0 < n)%N ->
  returns (compute_christoffel self mu rho sigma) =
  [&& in_range s mu, in_range n rho & in_range n sigma].
Proof.
move=> ns n0; rewrite returns_compute_christoffelE.
by apply: all_range_const => // k kn; apply: returns_christoffel_term.
Qed.

Lemma compute_christoffel_nat (mu rho sigma : nat) :
  (n <= s)%N -> (mu < s)%N -> (rho < n)%N -> (sigma < n)%N ->
  compute_christoffel self mu rho sigma =
  inr (foldl (fun acc (nu : int) =>
                e_add acc (christoffel_summand self mu rho sigma (absz nu)))
             (Constant 0) (range n)).
Proof.
move=> ns muS rhoN sigmaN; apply: foldM_foldl => acc x /mem_range [nu nuN ->].
by rewrite christoffel_term_nat.
Qed.

Lemma christoffelE (mu rho sigma : nat) :
  (n <= s)%N -> (mu < s)%N -> (rho < n)%N -> (sigma < n)%N ->
  compute_christoffel self mu rho sigma = inr (christoffel self mu rho sigma).
Proof.
by move=> ns muS rhoN sigmaN; rewrite /christoffel compute_christoffel_nat.
Qed.

(** The value of a Christoffel symbol at in-range indices, with the
    derivatives in the order in which the code adds them. *)
Lemma eval_christoffel (F : numFieldType) (p : point F) (mu rho sigma : nat) :
  (n <= s)%N -> (mu < s)%N -> (rho < n)%N -> (sigma < n)%N ->
  eval p (christoffel self mu rho sigma) =
  \sum_(0 <= nu < n)
     2^-1 * eval p (entry (g_inv self) mu nu) *
     (eval p (d_coord self sigma (entry (g self) nu rho))
      + eval p (d_coord self rho (entry (g self) nu sigma))
      - eval p (d_coord self nu (entry (g self) rho sigma))).
Proof.
move=> ns muS rhoN sigmaN; rewrite /christoffel compute_christoffel_nat //.
rewrite eval_foldl_add eval_zero add0r sum_range.
apply: eq_bigr => nu _.
by rewrite /christoffel_summand !eval_mul eval_sub eval_add eval_half.
Qed.

Lemma returns_geodesic_termE (mu rho sigma : int) :
  returns (geodesic_term self mu rho sigma) =
  [&& returns (compute_christoffel self mu rho sigma),
      in_range 4 rho & in_range 4 sigma].
Proof.
rewrite /geodesic_term wf_velocities.
rewrite -(returns_getitem [:: "u0"; "u1"; "u2"; "u3"]%string rho).
rewrite -(returns_getitem [:: "u0"; "u1"; "u2"; "u3"]%string sigma).
case: (compute_christoffel _ _ _ _) => [?|?] //=.
by do 2![case: (getitem _ _) => [?|?] //=].
Qed.

Lemma geodesic_term_nat (mu rho sigma : nat) :
  (n <= s)%N -> (n <= 4)%N -> (mu < s)%N -> (rho < n)%N -> (sigma < n)%N ->
  geodesic_term self mu rho sigma =
  inr (e_mul (e_mul (christoffel self mu rho sigma)
                    (Symbol (velocity self rho)))
             (Symbol (velocity self sigma))).
Proof.
move=> ns n4 muS rhoN sigmaN; rewrite /geodesic_term christoffelE //=.
have sz : size (velocities self) = 4%N by rewrite wf_velocities.
by rewrite !(getitem_nat ""%string) ?sz ?(leq_trans _ n4).
Qed.

Lemma returns_compute_geodesic_rhsE (mu : int) :
  returns (compute_geodesic_rhs self mu) =
  all (fun rho =>
         all (fun sigma => returns (geodesic_term self mu rho sigma))
             (range n))
      (range n).
Proof.
apply: returns_foldM => acc rho.
apply: returns_foldM => acc' sigma.
by case: (geodesic_term _ _ _ _).
Qed.

Lemma compute_geodesic_rhs_nat (mu : nat) :
  (n <= s)%N -> (n <= 4)%N -> (mu < s)%N ->
  compute_geodesic_rhs self mu =
  inr (foldl (fun acc (rho : int) =>
         foldl (fun acc (sigma : int) =>
                  e_sub acc
                    (e_mul (e_mul (christoffel self mu (absz rho) (absz sigma))
                                  (Symbol (velocity self (absz rho))))
                           (Symbol (velocity self (absz sigma)))))
               acc (range n))
       (Constant 0) (range n)).
Proof.
move=> ns n4 muS.
apply: foldM_foldl => acc x /mem_range [rho rhoN ->].
apply: foldM_foldl => acc' y /mem_range [sigma sigmaN ->].
by rewrite geodesic_term_nat.
Qed.

(** A constructor call that got through its first right-hand side had
    no more coordinates than the matrix has rows, and no more than four. *)
Lemma returns_rhs_bounds :
  (0 < n)%N -> returns (compute_geodesic_rhs self 0) ->
  (n <= s)%N /\ (n <= 4)%N.
Proof.
case E: n => [|k] // _; rewrite returns_compute_geodesic_rhsE E => H.
have kn : (k < k.+1)%N by [].
have := all_range_nth (all_range_nth H kn) kn.
rewrite returns_geodesic_termE => /and3P [Hc]; rewrite in_range_nat => k4 _.
split=> //; move: Hc; rewrite returns_compute_christoffelE E.
move/all_range_nth => /(_ k kn); rewrite /christoffel_term.
have := returns_matrix_getitem 0 k wf_g_inv.
case: (matrix_getitem _ _ _) => [?|?] //= /esym /andP [_].
by rewrite in_range_nat.
Qed.

End Methods.

(* ===================================================================== *)
(** * The inverse, against the determinant theory of matrices *)
(* ===================================================================== *)

Section Removal.

Variable T : Type.

Lemma nth_remove_nth (x0 : T) (s : seq T) (k a : nat) :
  nth x0 (remove_nth k s) a = nth x0 s (bump k a).
Proof.
rewrite /remove_nth /bump nth_cat size_take.
case: (ltnP k (size s)) => ks.
  case: (ltnP a k) => ak; first by rewrite add0n nth_take.
  by rewrite add1n nth_drop addSn subnKC.
case: (ltnP a (size s)) => asz.
  have ak : (a < k)%N := leq_trans asz ks.
  by rewrite leqNgt ak add0n take_oversize.
rewrite drop_oversize ?nth_nil ?nth_default //; first exact: leqW.
by rewrite (leq_trans asz) // leq_addl.
Qed.

Lemma nth_map_default (U : Type) (f : T -> U) (x0 : T) (s : seq T) (i : nat) :
  nth (f x0) (map f s) i = f (nth x0 s i).
Proof. by elim: s i => [|x s IH] [|i] //=. Qed.

End Removal.

Lemma entry_minor (M : Matrix) (i j a b : nat) :
  entry (minor_matrix i j M) a b = entry M (bump i a) (bump j b).
Proof.
rewrite /entry /minor_matrix.
rewrite (nth_map_default (remove_nth j) [::] (remove_nth i M) a).
by rewrite !nth_remove_nth.
Qed.

Lemma size_adjugate (M : Matrix) : square_of (size M) (adjugate M).
Proof.
rewrite /square_of /adjugate size_map size_iota eqxx all_map /=.
by apply/allP => i _ /=; rewrite size_map size_iota.
Qed.

Lemma entry_adjugate (M : Matrix) (i j : nat) :
  (i < size M)%N -> (j < size M)%N ->
  entry (adjugate M) i j = cofactor M j i.
Proof.
move=> iM jM; rewrite /entry /adjugate.
rewrite (nth_map 0%N) ?size_iota // (nth_map 0%N) ?size_iota //.
by rewrite !nth_iota.
Qed.

(** What [inv] returns has the shape of its argument, and its entries are
    the cofactors over the determinant. *)
Lemma inv_inr (M Mi : Matrix) :
  inv M = inr Mi ->
  [/\ square_of (size M) M, square_of (size M) Mi
    & forall i j, (i < size M)%N -> (j < size M)%N ->
        entry Mi i j = e_div (cofactor M j i) (determinant M)].
Proof.
rewrite /inv -is_squareE; case: ifP => // /negbFE sq.
case: ifP => // _ [<-]; split=> //.
  case/andP: (size_adjugate M) => /eqP sA hA.
  rewrite /square_of size_map sA eqxx all_map /=.
  by apply: sub_all hA => row /=; rewrite size_map.
move=> i j iM jM; rewrite -entry_adjugate // /entry.
case/andP: (size_adjugate M) => /eqP sA /all_nthP hA.
rewrite (nth_map [::]) ?sA // (nth_map (Constant 0)) //.
by rewrite (eqP (hA [::] i _)) ?sA.
Qed.

Section Determinant.

Variables (F : numFieldType) (p : point F).

Lemma mx_at_minor (n : nat) (M : Matrix) (i j : 'I_n.+1) :
  mx_at p n (minor_matrix i j M) = row' i (col' j (mx_at p n.+1 M)).
Proof. by apply/matrixP => a b; rewrite !mxE entry_minor. Qed.

Lemma det_mx22 (A : 'M[F]_2) :
  \det A = A ord0 ord0 * A (lift ord0 ord0) (lift ord0 ord0)
           - A ord0 (lift ord0 ord0) * A (lift ord0 ord0) ord0.
Proof.
rewrite (expand_det_row A ord0) !big_ord_recl big_ord0 addr0.
rewrite /matrix.cofactor !det_mx11 !mxE /=.
have -> : lift ord0 (0 : 'I_1) = lift ord0 ord0 :> 'I_2 by apply: ord_inj.
have -> : lift (lift ord0 ord0) (0 : 'I_1) = ord0 :> 'I_2 by apply: ord_inj.
by rewrite /bump /= !add0n expr0 expr1 mul1r mulN1r mulrN.
Qed.

Lemma det_rec_expand (n : nat) (M : Matrix) :
  det_rec n.+3 M =
  Add [seq signed j (e_mul (entry M 0 j) (det_rec n.+2 (minor_matrix 0 j M)))
      | j <- iota 0 n.+3].
Proof. by []. Qed.

Lemma eval_det_rec (n : nat) (M : Matrix) :
  eval p (det_rec n M) = \det (mx_at p n M).
Proof.
elim: n M => [|[|[|n]] IH] M.
- by rewrite det_mx00 /= rmorph1.
- by rewrite det_mx11 mxE.
- by rewrite det_mx22 !mxE [det_rec _ _]/= eval_sub !eval_mul.
rewrite (expand_det_row _ ord0) det_rec_expand eval_Add big_map.
rewrite -[iota _ _]/(index_iota 0 n.+3) big_mkord.
apply: eq_bigr => j _.
rewrite eval_signed eval_mul IH (mx_at_minor M ord0 j).
rewrite /matrix.cofactor mxE add0n.
by rewrite mulrCA.
Qed.

Lemma eval_determinant (M : Matrix) :
  eval p (determinant M) = \det (mx_at p (size M) M).
Proof. exact: eval_det_rec. Qed.

Lemma eval_cofactor (n : nat) (M : Matrix) (i j : 'I_n) :
  size M = n ->
  eval p (cofactor M i j) = matrix.cofactor (mx_at p n M) i j.
Proof.
case: n i j => [[]|n] // i j sM.
by rewrite /cofactor sM eval_signed eval_det_rec mx_at_minor.
Qed.

(** The value of the inverse is the adjugate over the determinant. *)
Lemma mx_at_inv (M Mi : Matrix) :
  inv M = inr Mi ->
  mx_at p (size M) Mi =
  (\det (mx_at p (size M) M))^-1 *: \adj (mx_at p (size M) M).
Proof.
case/inv_inr => _ _ H; apply/matrixP => i j.
rewrite !mxE H // eval_div eval_determinant mulrC.
by rewrite (@eval_cofactor (size M)).
Qed.

Lemma mulmx_inv (M Mi : Matrix) :
  inv M = inr Mi ->
  eval p (determinant M) != 0 ->
  mx_at p (size M) M *m mx_at p (size M) Mi = 1%:M /\
  mx_at p (size M) Mi *m mx_at p (size M) M = 1%:M.
Proof.
move=> E; rewrite eval_determinant (mx_at_inv E) => d0.
rewrite -scalemxAr -scalemxAl mul_mx_adj mul_adj_mx.
by rewrite scale_scalar_mx mulVf.
Qed.

End Determinant.

(* ===================================================================== *)
(** * Lemmas on the constructor *)
(* ===================================================================== *)

Lemma well_formed_partial (g0 gi : Matrix) (coords : seq string) :
  inv g0 = inr gi -> well_formed (size g0) (partial_self g0 gi coords).
Proof.
by case/inv_inr => sq sqi _; rewrite /well_formed /= sq sqi !eqxx.
Qed.

Lemma Metric_init_inr (g0 : Matrix) (coords : seq string) (m : Metric) :
  Metric_init g0 coords = inr m ->
  exists gi rhs,
    [/\ inv g0 = inr gi,
        mapM (compute_geodesic_rhs (partial_self g0 gi coords))
             (range (size coords)) = inr rhs
      & m = set_geodesic_rhs (partial_self g0 gi coords) rhs].
Proof.
rewrite /Metric_init; case E: (inv g0) => [e|gi] //=.
case E': (mapM _ _) => [e|rhs] //= [<-].
by exists gi, rhs.
Qed.

Lemma Metric_initP (g0 : Matrix) (coords : seq string) (m : Metric) :
  Metric_init g0 coords = inr m -> constructed g0 coords m.
Proof.
case/Metric_init_inr => gi [rhs [Ei Er ->]].
have wf := well_formed_partial coords Ei.
have [ns n4] : (size coords <= size g0)%N /\ (size coords <= 4)%N.
  case: (posnP (size coords)) => [->//|n0].
  apply: (returns_rhs_bounds wf) => //.
  have: returns (mapM (compute_geodesic_rhs (partial_self g0 gi coords))
                      (range (size coords))) by rewrite Er.
  by rewrite returns_mapM => /all_range_nth; apply.
case: (mapM_inr (0 : int) (Constant 0) Er) => sz Hrhs.
split=> //=; first by rewrite sz size_map size_iota.
move=> mu muN; rewrite -Hrhs ?size_map ?size_iota //.
by rewrite (nth_map 0%N) ?size_iota // nth_iota.
Qed.

(** When the constructor returns: exactly when the inversion does and the
    coordinates are no more than the rows of the matrix, and no more than
    the four velocity symbols. *)
Lemma Metric_init_returns (g0 : Matrix) (coords : seq string) :
  returns (Metric_init g0 coords) =
  [&& returns (inv g0), (size coords <= size g0)%N & (size coords <= 4)%N].
Proof.
apply/idP/idP.
  case/returnsP => m E; have C := Metric_initP E.
  by rewrite (c_inv C) -(c_dim C) (c_side C) (c_four C).
case/and3P => /returnsP [gi Ei] ns n4; rewrite /Metric_init Ei /=.
have wf := well_formed_partial coords Ei.
set self := partial_self g0 gi coords.
set rhss := mapM (compute_geodesic_rhs self) (range (size coords)).
have -> : returns (rhs <- rhss ;; ret (set_geodesic_rhs self rhs)) =
          returns rhss.
  by case: rhss.
rewrite returns_mapM; apply/allP => x /mem_range [mu muN ->].
by rewrite (compute_geodesic_rhs_nat wf) // (leq_trans muN).
Qed.

Lemma index_only_mapM (T U : Type) (f : T -> exc U) (l : seq T) :
  (forall x, index_only (f x)) -> index_only (mapM f l).
Proof.
move=> H; elim: l => [|x l IH] //=.
apply: index_only_bind => // y.
by apply: index_only_bind.
Qed.

Lemma index_only_compute_geodesic_rhs (self : Metric) (mu : int) :
  index_only (compute_geodesic_rhs self mu).
Proof.
apply: index_only_foldM => acc rho; apply: index_only_foldM => acc' sigma.
apply: index_only_bind => //.
apply: index_only_bind => [|c]; first exact: index_only_compute_christoffel.
by do 2![apply: index_only_bind => [|?]; first exact: index_only_getitem].
Qed.

Section NestedSums.

Variables (F : numFieldType) (p : point F).

Lemma eval_foldl_sub2 (T : Type) (tv : T -> T -> Expression)
    (l1 l2 : seq T) (a : Expression) :
  eval p (foldl (fun acc x =>
                   foldl (fun acc y => e_sub acc (tv x y)) acc l2) a l1) =
  eval p a - \sum_(x <- l1) \sum_(y <- l2) eval p (tv x y).
Proof.
elim: l1 a => [|x l1 IH] a; first by rewrite big_nil subr0.
by rewrite [foldl _ _ _]/= IH eval_foldl_sub big_cons opprD addrA.
Qed.

End NestedSums.








(** The zero test never refuses a matrix that is invertible somewhere. *)
Lemma inv_returns (F : numFieldType) (p : point F) (M : Matrix) :
  is_square M -> eval p (determinant M) != 0 -> returns (inv M).
Proof.
move=> sq d0; rewrite /inv sq /=; case: ifP => // z.
by rewrite (is_zero_sound p z) eqxx in d0.
Qed.

(** A check of the whole pipeline on the Schwarzschild preset: at the
    exterior point, the symbol (1, 0, 0) has the closed-form value
    [M (r - 2 M) / r^3], here 1/125. *)
Lemma schwarzschild_radial :
  if Metric_init Preset.schwarzschild_g Preset.coordinates is inr m
  then eval Ex.exterior_pt (christoffel m 1 0 0) == 1%:Q / 125%:Q
  else false.
Proof. by vm_compute. Qed.

(* ===================================================================== *)
(** * The claims *)
(* ===================================================================== *)

(** C3.  On a constructed [Metric], [g_inv] is the two-sided inverse of
    [g]: at every point where the determinant of [g] does not vanish, and
    for [i], [j] in [0, dim), the sum over [k] (the whole side of the
    matrix, which is at least [dim]) of [g[i,k] * g_inv[k,j]] is 1 when
    [i = j] and 0 otherwise, and likewise for [g_inv[i,k] * g[k,j]]. *)
Theorem g_inv_two_sided (g0 : Matrix) (coords : seq string) (m : Metric)
    (F : numFieldType) (p : point F) (i j : nat) :
  Metric_init g0 coords = inr m ->
  eval p (determinant (g m)) != 0 ->
  (i < dim m)%N -> (j < dim m)%N ->
  [/\ (dim m <= size (g m))%N,
      \sum_(0 <= k < size (g m))
         eval p (entry (g m) i k) * eval p (entry (g_inv m) k j) = (i == j)%:R
    & \sum_(0 <= k < size (g m))
         eval p (entry (g_inv m) i k) * eval p (entry (g m) k j) = (i == j)%:R].
Proof.
move/Metric_initP => C; rewrite (c_g C) => d0 iN jN.
have iS := leq_trans iN (c_side C); have jS := leq_trans jN (c_side C).
case: (mulmx_inv (c_inv C) d0) => /matrixP Hr /matrixP Hl.
split; first exact: c_side C.
- move: (Hr (Ordinal iS) (Ordinal jS)); rewrite !mxE => <-.
  by rewrite big_mkord; apply: eq_bigr => k _; rewrite !mxE.
move: (Hl (Ordinal iS) (Ordinal jS)); rewrite !mxE => <-.
by rewrite big_mkord; apply: eq_bigr => k _; rewrite !mxE.
Qed.

(** The inverse of the flat plane, at a rational point, entry (0, 1). *)
Lemma g_inv_two_sided_witness :
  exists m : Metric,
    Metric_init Ex.flat2 Ex.xy = inr m /\
    \sum_(0 <= k < size (g m))
       eval Ex.pt (entry (g m) 0 k) * eval Ex.pt (entry (g_inv m) k 1)
    = (0%N == 1%N)%:R.
Proof.
case E: (Metric_init Ex.flat2 Ex.xy) => [e|m]; first by vm_compute in E.
exists m; split=> //.
have C := Metric_initP E.
have d0 : eval Ex.pt (determinant (g m)) != 0 by rewrite (c_g C); vm_compute.
have d1 : (0 < dim m)%N by rewrite (c_dim C).
have d2 : (1 < dim m)%N by rewrite (c_dim C).
by case: (g_inv_two_sided E d0 d1 d2).
Defined.

(** C4, as stated, fails: for the invertible matrix [[1, x], [0, 1]] over
    the coordinates [x, y], the symbols (0, 0, 1) and (0, 1, 0) differ in
    value at a rational point. *)
Lemma christoffel_not_symmetric :
  exists (m : Metric) (c1 c2 : Expression),
    [/\ Metric_init Ex.skew2 Ex.xy = inr m,
        compute_christoffel m 0 0 1 = inr c1,
        compute_christoffel m 0 1 0 = inr c2
      & eval Ex.pt c1 != eval Ex.pt c2].
Proof.
case E: (Metric_init Ex.skew2 Ex.xy) => [e|m]; first by vm_compute in E.
exists m; move: E; vm_compute Metric_init; case=> <-.
case E1: (compute_christoffel _ 0 0 1) => [e|c1]; first by vm_compute in E1.
case E2: (compute_christoffel _ 0 1 0) => [e|c2]; first by vm_compute in E2.
exists c1, c2; split=> //.
by move: E1 E2; vm_compute compute_christoffel => -[<-] [<-]; vm_compute.
Qed.

(** C4, amended.  On a constructed [Metric] whose matrix [g] is symmetric
    (entries [i, j] and [j, i] are the same expression), for [mu], [rho],
    [sigma] in [0, dim), [compute_christoffel(mu, rho, sigma)] and
    [compute_christoffel(mu, sigma, rho)] both return, and what they return
    has the same value at every point. *)
Theorem christoffel_symmetric (g0 : Matrix) (coords : seq string) (m : Metric)
    (mu rho sigma : nat) :
  Metric_init g0 coords = inr m ->
  (forall i j : nat, (i < dim m)%N -> (j < dim m)%N ->
     entry (g m) i j = entry (g m) j i) ->
  (mu < dim m)%N -> (rho < dim m)%N -> (sigma < dim m)%N ->
  exists c1 c2 : Expression,
    [/\ compute_christoffel m mu rho sigma = inr c1,
        compute_christoffel m mu sigma rho = inr c2
      & forall (F : numFieldType) (p : point F), eval p c1 = eval p c2].
Proof.
move/Metric_initP => C sym muN rhoN sigmaN.
have muS := leq_trans muN (c_side C).
exists (christoffel m mu rho sigma), (christoffel m mu sigma rho).
split; try exact: (christoffelE (c_wf C) (c_side C)).
move=> F p; rewrite !(eval_christoffel (c_wf C) p (c_side C)) //.
apply: eq_bigr => nu _; rewrite (sym rho sigma) //.
by rewrite [eval p (d_coord m sigma _) + _]addrC.
Qed.

(** The symmetry of C4 on the flat plane, indices 0, 0, 1. *)
Lemma christoffel_symmetric_witness :
  exists (m : Metric) (c1 c2 : Expression),
    [/\ Metric_init Ex.flat2 Ex.xy = inr m,
        compute_christoffel m 0 0 1 = inr c1,
        compute_christoffel m 0 1 0 = inr c2
      & forall (F : numFieldType) (p : point F), eval p c1 = eval p c2].
Proof.
case E: (Metric_init Ex.flat2 Ex.xy) => [e|m]; first by vm_compute in E.
have C := Metric_initP E.
have sym : forall i j : nat, (i < dim m)%N -> (j < dim m)%N ->
    entry (g m) i j = entry (g m) j i.
  by rewrite (c_g C) (c_dim C); move=> [|[|i]] [|[|j]].
have d0 : (0 < dim m)%N by rewrite (c_dim C).
have d1 : (1 < dim m)%N by rewrite (c_dim C).
case: (christoffel_symmetric E sym d0 d0 d1) => c1 [c2 [E1 E2 H]].
by exists m, c1, c2.
Defined.

(** C5, as stated, fails: the 2 by 2 flat metric with the single
    coordinate [x] is accepted, although the side of the matrix and the
    number of coordinates differ. *)
Lemma short_coordinates_accepted :
  exists m : Metric,
    [/\ Metric_init Ex.flat2 Ex.x1 = inr m, is_square Ex.flat2
      & size Ex.x1 != size Ex.flat2].
Proof.
case E: (Metric_init Ex.flat2 Ex.x1) => [e|m]; first by vm_compute in E.
by exists m.
Qed.

(** C5, amended.  Whatever the matrix, a coordinate list that is longer
    than the matrix has rows makes the constructor raise; when the
    inversion itself went through, what it raises is the [IndexError] of
    the first right-hand side.  A coordinate list that is shorter than the
    matrix has rows is no error in itself: the constructor then returns
    exactly when the inversion returns and there are at most four
    coordinates. *)
Theorem long_coordinates_rejected (g0 : Matrix) (coords : seq string) :
  ((size g0 < size coords)%N ->
   raises (Metric_init g0 coords) /\
   (returns (inv g0) -> Metric_init g0 coords = inl IndexError)) /\
  ((size coords < size g0)%N ->
   returns (Metric_init g0 coords) =
   returns (inv g0) && (size coords <= 4)%N).
Proof.
split=> [lt|lt]; last by rewrite Metric_init_returns (ltnW lt).
have R : raises (Metric_init g0 coords).
  rewrite raisesN; apply/negP => /returnsP [m /Metric_initP C].
  by move: (c_side C); rewrite (c_dim C) leqNgt lt.
split=> // /returnsP [gi Ei]; apply: index_only_raises => //.
rewrite /Metric_init Ei /=; apply: index_only_bind => //.
by apply: index_only_mapM => mu; apply: index_only_compute_geodesic_rhs.
Qed.

(** Three coordinates for the 2 by 2 flat metric. *)
Lemma long_coordinates_rejected_witness :
  (size Ex.flat2 < size Ex.xyz)%N /\
  raises (Metric_init Ex.flat2 Ex.xyz) /\
  (returns (inv Ex.flat2) -> Metric_init Ex.flat2 Ex.xyz = inl IndexError).
Proof.
have lt : (size Ex.flat2 < size Ex.xyz)%N by [].
exact: (conj lt (proj1 (long_coordinates_rejected Ex.flat2 Ex.xyz) lt)).
Defined.



(** C7, as stated, fails: on the flat plane the index -1, which is
    outside [0, dim), is accepted by [compute_christoffel] and by
    [geodesic_rhs[...]]. *)
Lemma negative_index_accepted :
  exists m : Metric,
    [/\ Metric_init Ex.flat2 Ex.xy = inr m,
        ~~ ((0 <= (-1 : int)) && ((-1 : int) < (dim m)%:Z)),
        returns (compute_christoffel m (-1) 0 0)
      & returns (getitem (geodesic_rhs m) (-1))].
Proof.
case E: (Metric_init Ex.flat2 Ex.xy) => [e|m]; first by vm_compute in E.
by exists m; move: E; vm_compute Metric_init; case=> <-; split; vm_compute.
Qed.

(** C7, amended.  On a constructed [Metric] with at least one coordinate,
    [compute_christoffel(mu, rho, sigma)] returns when [mu] is in
    [-side, side) and [rho], [sigma] are in [-dim, dim), and raises
    [IndexError] otherwise; [geodesic_rhs[mu]] returns when [mu] is in
    [-dim, dim) and raises [IndexError] otherwise.  Here [side] is the side
    of [g], which is at least [dim]. *)
Theorem index_error_ranges (g0 : Matrix) (coords : seq string) (m : Metric)
    (mu rho sigma : int) :
  Metric_init g0 coords = inr m -> (0 < dim m)%N ->
  [/\ (dim m <= size (g m))%N,
      [&& in_range (size (g m)) mu, in_range (dim m) rho
        & in_range (dim m) sigma] ->
      returns (compute_christoffel m mu rho sigma),
      ~~ [&& in_range (size (g m)) mu, in_range (dim m) rho
           & in_range (dim m) sigma] ->
      compute_christoffel m mu rho sigma = inl IndexError,
      in_range (dim m) mu -> returns (getitem (geodesic_rhs m) mu)
    & ~~ in_range (dim m) mu ->
      getitem (geodesic_rhs m) mu = inl IndexError].
Proof.
move/Metric_initP => C n0; rewrite (c_g C).
have R := returns_compute_christoffel (c_wf C) mu rho sigma (c_side C) n0.
split; first exact: c_side C.
- by rewrite R.
- rewrite -R -raisesN; apply: index_only_raises.
  exact: index_only_compute_christoffel.
- by rewrite returns_getitem (c_size C).
rewrite -(c_size C) -returns_getitem -raisesN; apply: index_only_raises.
exact: index_only_getitem.
Qed.

(** The flat plane queried at (2, 0, 0) and at 2: both raise. *)
Lemma index_error_ranges_witness :
  exists m : Metric,
    [/\ Metric_init Ex.flat2 Ex.xy = inr m,
        compute_christoffel m 2 0 0 = inl IndexError
      & getitem (geodesic_rhs m) 2 = inl IndexError].
Proof.
case E: (Metric_init Ex.flat2 Ex.xy) => [e|m]; first by vm_compute in E.
have C := Metric_initP E.
have n0 : (0 < dim m)%N by rewrite (c_dim C).
case: (index_error_ranges 2 0 0 E n0) => _ _ Hc _ Hg.
by exists m; split=> //; [apply: Hc | apply: Hg]; rewrite ?(c_g C) (c_dim C).
Defined.

(** C8, as stated, fails on each count: the flat plane has two
    coordinates and four velocity symbols; with the coordinates [u0, y]
    the symbol [u0] is a coordinate and a velocity; and the matrix
    [[u1, 0], [0, 1]], which mentions the velocity symbol [u1], is
    accepted. *)
Lemma velocities_not_per_coordinate :
  [/\ exists m : Metric,
        Metric_init Ex.flat2 Ex.xy = inr m /\
        size (velocities m) != size (coordinates m),
      exists m : Metric,
        [/\ Metric_init Ex.flat2 Ex.u0y = inr m,
            "u0"%string \in velocities m
          & "u0"%string \in coordinates m]
    & exists m : Metric,
        [/\ Metric_init Ex.diag_u1 Ex.xy = inr m,
            "u1"%string \in velocities m
          & entry (g m) 0 0 = Symbol "u1"]].
Proof.
split.
- case E: (Metric_init Ex.flat2 Ex.xy) => [e|m]; first by vm_compute in E.
  exists m; split=> //; have C := Metric_initP E.
  by rewrite (c_coordinates C) (wf_velocities (c_wf C)).
- case E: (Metric_init Ex.flat2 Ex.u0y) => [e|m]; first by vm_compute in E.
  exists m; have C := Metric_initP E.
  by rewrite (c_coordinates C) (wf_velocities (c_wf C)).
case E: (Metric_init Ex.diag_u1 Ex.xy) => [e|m]; first by vm_compute in E.
exists m; have C := Metric_initP E.
by rewrite (c_g C) (wf_velocities (c_wf C)).
Qed.

(** C8, amended.  On a constructed [Metric], [velocities] is the list of
    the four symbols [u0], [u1], [u2], [u3], pairwise distinct, whatever
    the coordinates are, and there are at most four coordinates; the
    constructor does not look at the names of the coordinates: with the
    same matrix it returns for every coordinate list of the same length,
    also one that uses the names of the velocity symbols. *)
Theorem velocities_fixed (g0 : Matrix) (coords : seq string) (m : Metric) :
  Metric_init g0 coords = inr m ->
  [/\ velocities m = [:: "u0"; "u1"; "u2"; "u3"]%string,
      uniq (velocities m),
      (dim m <= 4)%N
    & forall coords' : seq string,
        size coords' = size coords -> returns (Metric_init g0 coords')].
Proof.
move=> E; have C := Metric_initP E.
rewrite (wf_velocities (c_wf C)); split=> //; first exact: c_four C.
move=> coords' sz; rewrite Metric_init_returns sz -Metric_init_returns.
by rewrite E.
Qed.

(** The velocities of the flat plane, and the flat plane with the
    coordinate names [u0, y]. *)
Lemma velocities_fixed_witness :
  exists m : Metric,
    [/\ Metric_init Ex.flat2 Ex.xy = inr m,
        velocities m = [:: "u0"; "u1"; "u2"; "u3"]%string
      & returns (Metric_init Ex.flat2 Ex.u0y)].
Proof.
case E: (Metric_init Ex.flat2 Ex.xy) => [e|m]; first by vm_compute in E.
case: (velocities_fixed E) => V _ _ H.
by exists m; split=> //; apply: H.
Defined.

(** C9.  [getMetric("kerr")] and [getMetric("schwarzschild")] return: each
    gives a [Metric] with [dim = 4] and coordinates [t, r, theta, phi],
    paired with the symbol list [t, r, theta, phi, M, a], respectively
    [t, r, theta, phi, M]. *)
Theorem getMetric_presets :
  exists mk ms : Metric,
    [/\ getMetric "kerr" =
        inr (mk, [:: "t"; "r"; "theta"; "phi"; "M"; "a"]%string),
        getMetric "schwarzschild" =
        inr (ms, [:: "t"; "r"; "theta"; "phi"; "M"]%string),
        dim mk = 4%N /\
        coordinates mk = [:: "t"; "r"; "theta"; "phi"]%string
      & dim ms = 4%N /\
        coordinates ms = [:: "t"; "r"; "theta"; "phi"]%string].
Proof.
have /returnsP [mk Ek] :
  returns (Metric_init Preset.kerr_g Preset.coordinates) by vm_compute.
have /returnsP [ms Es] :
  returns (Metric_init Preset.schwarzschild_g Preset.coordinates)
  by vm_compute.
have [dk ck] := (c_dim (Metric_initP Ek), c_coordinates (Metric_initP Ek)).
have [ds cs] := (c_dim (Metric_initP Es), c_coordinates (Metric_initP Es)).
exists mk, ms; rewrite /getMetric /getMetric_with Ek Es {Ek Es}.
by split; [reflexivity | reflexivity | rewrite dk ck | rewrite ds cs].
Qed.



(* ===================================================================== *)
(** * Further lemmas: indices that select the same element *)
(* ===================================================================== *)

Lemma eq_foldM (T A : Type) (body body' : A -> T -> exc A) (l : seq T)
    (a : A) :
  (forall acc x, body acc x = body' acc x) ->
  foldM body a l = foldM body' a l.
Proof.
move=> H; elim: l a => [|x l IH] a //=.
by rewrite H; case: (body' a x) => [e|y] //=.
Qed.

Lemma norm_index_wrap (n : nat) (i : int) :
  in_range n i -> norm_index n (wrap_index n i) = norm_index n i.
Proof.
rewrite -norm_index_range norm_indexE /wrap_index; case: i => k //=.
case: ltnP => // kn _; rewrite NegzE addrC subzn // norm_indexE.
by rewrite ltn_subrL (leq_ltn_trans _ kn).
Qed.

Lemma getitem_norm (T : Type) (l : seq T) (i j : int) :
  norm_index (size l) i = norm_index (size l) j -> getitem l i = getitem l j.
Proof. by rewrite /getitem => ->. Qed.

Lemma matrix_getitem_norm (n : nat) (M : Matrix) (i i' j j' : int) :
  square_of n M ->
  norm_index n i = norm_index n i' -> norm_index n j = norm_index n j' ->
  matrix_getitem M i j = matrix_getitem M i' j'.
Proof.
move=> sq Hi Hj; rewrite /matrix_getitem /getitem.
have sM : size M = n by case/andP: sq => /eqP.
rewrite sM Hi; case E: (norm_index n i') => [k|] //.
have kn := norm_index_lt E.
by rewrite (ohead_drop [::]) ?sM //= (square_of_row sq kn) Hj.
Qed.

Section MethodsNorm.

Variables (s : nat) (self : Metric).
Hypothesis wf : well_formed s self.

Local Notation n := (dim self).

Lemma deriv_norm (a a' b b' c c' : int) :
  norm_index s a = norm_index s a' -> norm_index s b = norm_index s b' ->
  norm_index n c = norm_index n c' ->
  deriv self a b c = deriv self a' b' c'.
Proof.
move=> Ha Hb Hc; rewrite /deriv (matrix_getitem_norm (wf_g wf) Ha Hb).
case: (matrix_getitem _ _ _) => [e|x] //=.
by rewrite (@getitem_norm _ _ c c') // (wf_dim wf).
Qed.

Lemma christoffel_term_norm (mu mu' rho rho' sigma sigma' nu : int) :
  norm_index s mu = norm_index s mu' ->
  norm_index s rho = norm_index s rho' ->
  norm_index n rho = norm_index n rho' ->
  norm_index s sigma = norm_index s sigma' ->
  norm_index n sigma = norm_index n sigma' ->
  christoffel_term self mu rho sigma nu =
  christoffel_term self mu' rho' sigma' nu.
Proof.
move=> Hm Hrs Hrn Hss Hsn; rewrite /christoffel_term.
rewrite (@matrix_getitem_norm s _ mu mu' nu nu) ?(wf_g_inv wf) //.
rewrite (@deriv_norm nu nu rho rho' sigma sigma') //.
rewrite (@deriv_norm nu nu sigma sigma' rho rho') //.
by rewrite (@deriv_norm rho rho' sigma sigma' nu nu).
Qed.

Lemma compute_christoffel_norm (mu mu' rho rho' sigma sigma' : int) :
  norm_index s mu = norm_index s mu' ->
  norm_index s rho = norm_index s rho' ->
  norm_index n rho = norm_index n rho' ->
  norm_index s sigma = norm_index s sigma' ->
  norm_index n sigma = norm_index n sigma' ->
  compute_christoffel self mu rho sigma =
  compute_christoffel self mu' rho' sigma'.
Proof.
move=> Hm Hrs Hrn Hss Hsn; apply: eq_foldM => acc nu.
by rewrite (christoffel_term_norm nu Hm Hrs Hrn Hss Hsn).
Qed.

Lemma compute_geodesic_rhs_norm (mu mu' : int) :
  norm_index s mu = norm_index s mu' ->
  compute_geodesic_rhs self mu = compute_geodesic_rhs self mu'.
Proof.
move=> Hm; apply: eq_foldM => acc rho; apply: eq_foldM => acc' sigma.
by rewrite /geodesic_term (@compute_christoffel_norm mu mu' rho rho sigma sigma).
Qed.

Lemma returns_compute_geodesic_rhs (mu : int) :
  (n <= s)%N -> (n <= 4)%N -> (0 < n)%N ->
  returns (compute_geodesic_rhs self mu) = in_range s mu.
Proof.
move=> ns n4 n0; rewrite returns_compute_geodesic_rhsE.
apply: all_range_const => // rho rhoN.
apply: all_range_const => // sigma sigmaN.
rewrite (returns_geodesic_termE wf) (returns_compute_christoffel wf) //.
by rewrite !in_range_nat rhoN sigmaN !(leq_trans _ n4) // !andbT.
Qed.

End MethodsNorm.

(* ===================================================================== *)
(** * Further lemmas: values of the symbols and of the right-hand sides *)
(* ===================================================================== *)

Section Values.

Variables (s : nat) (self : Metric).
Hypothesis wf : well_formed s self.
Variables (F : numFieldType) (p : point F).

Local Notation n := (dim self).

(** The value of a cached right-hand side. *)
Lemma eval_geodesic_rhs (mu : nat) (e : Expression) :
  (n <= s)%N -> (n <= 4)%N -> (mu < s)%N ->
  compute_geodesic_rhs self mu = inr e ->
  eval p e =
  - \sum_(0 <= rho < n) \sum_(0 <= sigma < n)
       eval p (christoffel self mu rho sigma)
       * env p (velocity self rho) * env p (velocity self sigma).
Proof.
move=> ns n4 muS; rewrite (compute_geodesic_rhs_nat wf ns n4 muS) => -[<-].
rewrite eval_foldl_sub2 eval_zero sub0r sum_range.
congr (- _); apply: eq_bigr => rho _; rewrite sum_range.
by apply: eq_bigr => sigma _; rewrite !eval_mul.
Qed.

End Values.

(* ===================================================================== *)
(** * Further properties of the code *)
(* ===================================================================== *)

(** X1.  The call [Metric(g, coordinates)] returns exactly when the
    inversion of [g] returns and the coordinates are at most as many as
    the rows of [g] and at most four, the number of velocity symbols. *)
Theorem constructor_returns_exactly (g0 : Matrix) (coords : seq string) :
  returns (Metric_init g0 coords) =
  [&& returns (inv g0), (size coords <= size g0)%N & (size coords <= 4)%N].
Proof. exact: Metric_init_returns. Qed.

(** X2.  An exception of the constructor is either the exception of the
    inversion, unchanged, or, when the inversion returned, an [IndexError]
    caused by more coordinates than rows or more than four coordinates. *)
Theorem constructor_exceptions (g0 : Matrix) (coords : seq string)
    (e : exception) :
  Metric_init g0 coords = inl e ->
  inv g0 = inl e \/
  [/\ returns (inv g0), e = IndexError
    & (size g0 < size coords)%N || (4 < size coords)%N].
Proof.
move=> E; case Ei: (inv g0) => [e'|gi].
  by left; move: E; rewrite /Metric_init Ei /= => -[->].
right; split=> //.
- have io : index_only (Metric_init g0 coords).
    rewrite /Metric_init Ei /=; apply: index_only_bind => //.
    by apply: index_only_mapM => mu; apply: index_only_compute_geodesic_rhs.
  by move: io; rewrite E; case: e {E}.
- have := Metric_init_returns g0 coords; rewrite E Ei /=.
  by move/esym/negbT; rewrite negb_and -!ltnNge.
Qed.

(** Three coordinates for the 2 by 2 flat metric: an [IndexError]. *)
Lemma constructor_exceptions_witness :
  Metric_init Ex.flat2 Ex.xyz = inl IndexError /\
  (inv Ex.flat2 = inl IndexError \/
   [/\ returns (inv Ex.flat2), IndexError = IndexError
     & (size Ex.flat2 < size Ex.xyz)%N || (4 < size Ex.xyz)%N]).
Proof.
have E : Metric_init Ex.flat2 Ex.xyz = inl IndexError by vm_compute.
exact: (conj E (constructor_exceptions E)).
Defined.

(** X3.  With an empty coordinate list the constructor returns as soon as
    the inversion does; the object has [dim = 0] and no right-hand side,
    and then [compute_christoffel] and [compute_geodesic_rhs] return the
    zero they start from at every index, in range or not, while
    [geodesic_rhs[mu]] raises [IndexError] at every index. *)
Theorem empty_coordinates (g0 : Matrix) (m : Metric) :
  Metric_init g0 [::] = inr m ->
  [/\ dim m = 0%N, geodesic_rhs m = [::],
      forall mu rho sigma : int,
        compute_christoffel m mu rho sigma = inr (Constant 0),
      forall mu : int, compute_geodesic_rhs m mu = inr (Constant 0)
    & forall mu : int, getitem (geodesic_rhs m) mu = inl IndexError].
Proof.
case/Metric_init_inr => gi [rhs [_ /= [<-] ->]]; split=> // mu.
by rewrite /getitem /= norm_indexE; case: mu.
Qed.

(** The flat metric without coordinates. *)
Lemma empty_coordinates_witness :
  exists m : Metric,
    Metric_init Ex.flat2 [::] = inr m /\
    compute_christoffel m 7 (-3) 0 = inr (Constant 0).
Proof.
case E: (Metric_init Ex.flat2 [::]) => [e|m]; first by vm_compute in E.
by exists m; split=> //; case: (empty_coordinates E).
Defined.

(** X4.  On a constructed [Metric], [deriv(mu, nu, rho)] returns exactly
    when [mu] and [nu] are in [-side, side) and [rho] is in [-dim, dim),
    and raises [IndexError] otherwise; what it returns is the derivative
    of the entry of [g] that the two normalised indices select, with
    respect to the coordinate that the third selects. *)
Theorem deriv_ranges (g0 : Matrix) (coords : seq string) (m : Metric)
    (mu nu rho : int) :
  Metric_init g0 coords = inr m ->
  [/\ returns (deriv m mu nu rho) =
      [&& in_range (size (g m)) mu, in_range (size (g m)) nu
        & in_range (dim m) rho],
      raises (deriv m mu nu rho) -> deriv m mu nu rho = inl IndexError
    & forall a b c : nat,
        norm_index (size (g m)) mu = Some a ->
        norm_index (size (g m)) nu = Some b ->
        norm_index (dim m) rho = Some c ->
        deriv m mu nu rho = inr (d_coord m c (entry (g m) a b))].
Proof.
move/Metric_initP => C; rewrite (c_g C); have wf := c_wf C.
split; first exact: returns_deriv.
- by apply: index_only_raises; apply: index_only_deriv.
move=> a b c Ha Hb Hc.
have aS := norm_index_lt Ha; have bS := norm_index_lt Hb.
have cN := norm_index_lt Hc.
rewrite (@deriv_norm _ _ wf mu a nu b rho c) ?norm_index_nat //.
by rewrite (deriv_nat wf) // (c_g C).
Qed.

(** On the flat plane, [deriv(-1, 0, -2)] differentiates [g[1, 0]] with
    respect to the first coordinate. *)
Lemma deriv_ranges_witness :
  exists m : Metric,
    Metric_init Ex.flat2 Ex.xy = inr m /\
    deriv m (-1) 0 (-2) = inr (d_coord m 0 (entry (g m) 1 0)).
Proof.
case E: (Metric_init Ex.flat2 Ex.xy) => [e|m]; first by vm_compute in E.
exists m; split=> //; have C := Metric_initP E.
case: (deriv_ranges (-1) 0 (-2) E) => _ _; apply.
- by rewrite (c_g C).
- by rewrite (c_g C).
by rewrite (c_dim C).
Defined.

(** X5.  On a constructed [Metric] whose matrix has as many rows as there
    are coordinates, a negative index that [compute_christoffel] accepts
    stands for the index counted from the end: the call returns what the
    call with the indices [i + dim] returns. *)
Theorem christoffel_wraps (g0 : Matrix) (coords : seq string) (m : Metric)
    (mu rho sigma : int) :
  Metric_init g0 coords = inr m -> dim m = size (g m) ->
  in_range (dim m) mu -> in_range (dim m) rho -> in_range (dim m) sigma ->
  compute_christoffel m mu rho sigma =
  compute_christoffel m (wrap_index (dim m) mu) (wrap_index (dim m) rho)
                        (wrap_index (dim m) sigma).
Proof.
move/Metric_initP => C; rewrite (c_g C) => ds Rm Rr Rs.
apply: (compute_christoffel_norm (c_wf C));
  by rewrite -?ds norm_index_wrap.
Qed.

(** On the flat plane, the indices (-1, -2, -1) stand for (1, 0, 1). *)
Lemma christoffel_wraps_witness :
  exists m : Metric,
    Metric_init Ex.flat2 Ex.xy = inr m /\
    compute_christoffel m (-1) (-2) (-1) =
    compute_christoffel m (wrap_index (dim m) (-1)) (wrap_index (dim m) (-2))
                          (wrap_index (dim m) (-1)).
Proof.
case E: (Metric_init Ex.flat2 Ex.xy) => [e|m]; first by vm_compute in E.
exists m; split=> //; have C := Metric_initP E.
have ds : dim m = size (g m) by rewrite (c_g C) (c_dim C).
by apply: (christoffel_wraps E ds); rewrite (c_dim C).
Defined.

(** X6.  On a constructed [Metric] with at least one coordinate,
    [compute_geodesic_rhs(mu)] returns exactly when [mu] is in
    [-side, side), where [side] is the number of rows of [g], and raises
    [IndexError] otherwise. *)
Theorem compute_geodesic_rhs_ranges (g0 : Matrix) (coords : seq string)
    (m : Metric) (mu : int) :
  Metric_init g0 coords = inr m -> (0 < dim m)%N ->
  returns (compute_geodesic_rhs m mu) = in_range (size (g m)) mu /\
  (~~ in_range (size (g m)) mu ->
   compute_geodesic_rhs m mu = inl IndexError).
Proof.
move/Metric_initP => C n0; rewrite (c_g C).
have R := returns_compute_geodesic_rhs (c_wf C) mu (c_side C) (c_four C) n0.
split=> // out; apply: index_only_raises.
  exact: index_only_compute_geodesic_rhs.
by rewrite raisesN R.
Qed.

(** With one coordinate on the 2 by 2 flat metric, the method accepts the
    index 1, which is outside [range(dim)], and refuses 2. *)
Lemma compute_geodesic_rhs_ranges_witness :
  exists m : Metric,
    [/\ Metric_init Ex.flat2 Ex.x1 = inr m,
        returns (compute_geodesic_rhs m 1)
      & compute_geodesic_rhs m 2 = inl IndexError].
Proof.
case E: (Metric_init Ex.flat2 Ex.x1) => [e|m]; first by vm_compute in E.
exists m; have C := Metric_initP E.
have n0 : (0 < dim m)%N by rewrite (c_dim C).
split=> //.
  by case: (compute_geodesic_rhs_ranges 1 E n0) => -> _; rewrite (c_g C).
by case: (compute_geodesic_rhs_ranges 2 E n0) => _; apply; rewrite (c_g C).
Defined.

(** X7.  On a constructed [Metric] whose matrix has as many rows as there
    are coordinates, and at least one, the method and the cache agree at
    every index: [compute_geodesic_rhs(mu)] returns the expression that
    [geodesic_rhs[mu]] holds, negative indices included, and raises
    [IndexError] where [geodesic_rhs[mu]] does. *)
Theorem compute_geodesic_rhs_cached (g0 : Matrix) (coords : seq string)
    (m : Metric) (mu : int) :
  Metric_init g0 coords = inr m -> dim m = size (g m) -> (0 < dim m)%N ->
  compute_geodesic_rhs m mu = getitem (geodesic_rhs m) mu.
Proof.
move/Metric_initP => C; rewrite (c_g C) => ds n0.
rewrite (getitemE (Constant 0)) (c_size C).
case E: (norm_index (dim m) mu) => [k|].
  have kn := norm_index_lt E.
  rewrite (@compute_geodesic_rhs_norm _ _ (c_wf C) mu k) ?(c_rhs C) //.
  by rewrite -ds E norm_index_nat.
apply: index_only_raises; first exact: index_only_compute_geodesic_rhs.
rewrite raisesN.
rewrite (returns_compute_geodesic_rhs (c_wf C) mu (c_side C) (c_four C) n0).
by rewrite -ds -norm_index_range E.
Qed.

(** On the flat plane, at the index -1. *)
Lemma compute_geodesic_rhs_cached_witness :
  exists m : Metric,
    Metric_init Ex.flat2 Ex.xy = inr m /\
    compute_geodesic_rhs m (-1) = getitem (geodesic_rhs m) (-1).
Proof.
case E: (Metric_init Ex.flat2 Ex.xy) => [e|m]; first by vm_compute in E.
exists m; split=> //; have C := Metric_initP E.
have ds : dim m = size (g m) by rewrite (c_g C) (c_dim C).
have n0 : (0 < dim m)%N by rewrite (c_dim C).
exact: (compute_geodesic_rhs_cached (-1) E ds n0).
Defined.

(** X10.  A constant metric is flat.  On a constructed [Metric] whose
    matrix entries are numbers, [compute_christoffel] returns expressions
    that are zero at every point, for all indices in [0, dim), and every
    cached right-hand side is zero at every point. *)
Theorem constant_metric_flat (g0 : Matrix) (coords : seq string) (m : Metric)
    (mu rho sigma : nat) :
  Metric_init g0 coords = inr m ->
  (forall i j : nat, (i < dim m)%N -> (j < dim m)%N ->
     exists c : rat, entry (g m) i j = Constant c) ->
  (mu < dim m)%N -> (rho < dim m)%N -> (sigma < dim m)%N ->
  (exists2 c : Expression,
     compute_christoffel m mu rho sigma = inr c &
     forall (F : numFieldType) (p : point F), eval p c = 0) /\
  (forall (F : numFieldType) (p : point F),
     eval p (nth (Constant 0) (geodesic_rhs m) mu) = 0).
Proof.
move/Metric_initP => C const muN rhoN sigmaN.
have wf := c_wf C; have ns := c_side C.
have lt_s k : (k < dim m)%N -> (k < size g0)%N.
  by move=> kN; apply: leq_trans kN ns.
have dz (F : numFieldType) (p : point F) i j k :
    (i < dim m)%N -> (j < dim m)%N ->
    eval p (d_coord m k (entry (g m) i j)) = 0.
  by move=> iN jN; case: (const i j iN jN) => c ->; rewrite /= rmorph0.
have cz (F : numFieldType) (p : point F) a b c :
    (a < dim m)%N -> (b < dim m)%N -> (c < dim m)%N ->
    eval p (christoffel m a b c) = 0.
  move=> aN bN cN; rewrite (eval_christoffel wf) ?lt_s //.
  apply: big1_seq => k /andP [_]; rewrite mem_index_iota => /andP [_ kN].
  by rewrite !dz // addr0 subr0 mulr0.
split.
  exists (christoffel m mu rho sigma); last by move=> F p; apply: cz.
  by apply: (christoffelE wf) => //; apply: lt_s.
move=> F p; have muS := lt_s _ muN.
rewrite (eval_geodesic_rhs wf p ns (c_four C) muS (c_rhs C muN)).
rewrite big1_seq ?oppr0 // => a /andP [_]; rewrite mem_index_iota.
move=> /andP [_ aN]; apply: big1_seq => b /andP [_]; rewrite mem_index_iota.
by move=> /andP [_ bN]; rewrite cz // !mul0r.
Qed.

(** The flat plane: the symbol (0, 0, 1) and the first right-hand side. *)
Lemma constant_metric_flat_witness :
  exists m : Metric,
    Metric_init Ex.flat2 Ex.xy = inr m /\
    forall (F : numFieldType) (p : point F),
      eval p (nth (Constant 0) (geodesic_rhs m) 0) = 0.
Proof.
case E: (Metric_init Ex.flat2 Ex.xy) => [e|m]; first by vm_compute in E.
exists m; split=> //; have C := Metric_initP E.
have const : forall i j : nat, (i < dim m)%N -> (j < dim m)%N ->
    exists c : rat, entry (g m) i j = Constant c.
  rewrite (c_g C) (c_dim C).
  by move=> [|[|i]] [|[|j]] // _ _; [exists 1 | exists 0 | exists 0 | exists 1].
have n0 : (0 < dim m)%N by rewrite (c_dim C).
by case: (constant_metric_flat E const n0 n0 n0).
Defined.

(** X11.  On a constructed [Metric], at a point where every velocity
    symbol but the first has the value zero, the cached right-hand side
    [geodesic_rhs[mu]] has the value of
    [- christoffel(mu, 0, 0) * u0 * u0]: of the double sum only the first
    term is left. *)
Theorem geodesic_rhs_at_rest (g0 : Matrix) (coords : seq string) (m : Metric)
    (F : numFieldType) (p : point F) (mu : nat) :
  Metric_init g0 coords = inr m -> (mu < dim m)%N ->
  (forall k : nat, (0 < k)%N -> (k < dim m)%N ->
     env p (velocity m k) = 0) ->
  compute_christoffel m mu 0 0 = inr (christoffel m mu 0 0) /\
  eval p (nth (Constant 0) (geodesic_rhs m) mu) =
  - (eval p (christoffel m mu 0 0) * env p (velocity m 0) ^+ 2).
Proof.
move/Metric_initP => C muN rest.
have wf := c_wf C; have ns := c_side C.
have n0 : (0 < dim m)%N by apply: leq_ltn_trans muN.
have muS : (mu < size g0)%N by apply: leq_trans muN ns.
split; first exact: (christoffelE wf).
rewrite (eval_geodesic_rhs wf p ns (c_four C) muS (c_rhs C muN)).
congr (- _); rewrite big_ltn // big_ltn //.
have -> : \sum_(1 <= b < dim m)
            eval p (christoffel m mu 0 b) * env p (velocity m 0)
            * env p (velocity m b) = 0.
  apply: big1_seq => b /andP [_]; rewrite mem_index_iota => /andP [b0 bN].
  by rewrite (rest b) // mulr0.
rewrite big1_seq ?addr0 ?expr2 ?mulrA //.
move=> a /andP [_]; rewrite mem_index_iota => /andP [a0 aN].
by apply: big1 => b _; rewrite (rest a) // mulr0 mul0r.
Qed.

(** The Schwarzschild preset at the exterior point, radial component. *)
Lemma geodesic_rhs_at_rest_witness :
  exists m : Metric,
    Metric_init Preset.schwarzschild_g Preset.coordinates = inr m /\
    eval Ex.exterior_pt (nth (Constant 0) (geodesic_rhs m) 1) =
    - (eval Ex.exterior_pt (christoffel m 1 0 0)
       * env Ex.exterior_pt (velocity m 0) ^+ 2).
Proof.
have /returnsP [m E] :
  returns (Metric_init Preset.schwarzschild_g Preset.coordinates)
  by vm_compute.
exists m; split; first exact: E.
have C := Metric_initP E.
have n1 : (1 < dim m)%N by rewrite (c_dim C).
have rest : forall k : nat, (0 < k)%N -> (k < dim m)%N ->
    env Ex.exterior_pt (velocity m k) = 0.
  rewrite /velocity (wf_velocities (c_wf C)) (c_dim C).
  by move=> [|[|[|[|k]]]].
by case: (geodesic_rhs_at_rest E n1 rest).
Defined.

(** X12.  Whatever the object and the indices, the three query methods
    raise nothing but [IndexError]. *)
Theorem queries_raise_only_IndexError (self : Metric) (mu nu rho sigma : int)
    (e : exception) :
  [/\ deriv self mu nu rho = inl e -> e = IndexError,
      compute_christoffel self mu rho sigma = inl e -> e = IndexError
    & compute_geodesic_rhs self mu = inl e -> e = IndexError].
Proof.
have only (T : Type) (c : exc T) : index_only c -> c = inl e -> e = IndexError.
  by move=> io E; move: io; rewrite E; case: (e).
split; apply: only.
- exact: index_only_deriv.
- exact: index_only_compute_christoffel.
- exact: index_only_compute_geodesic_rhs.
Qed.
